(** * A chess move server: coordinate helpers, board reconstruction,
      evaluation and alpha-beta search ([api/brain.py])

    The program receives an inventory of pieces, rebuilds a python-chess
    board from it, and searches the best reply for Black with a fixed-depth
    minimax.  This development embeds the program's functions and proves
    properties of them.

    Conventions of the embedding.
    - A Python [str] is a list of Unicode code points ([pystr]); literals
      are written [str "..."].
    - A Python [int] is a [Z]; [math.inf] and [-math.inf] are the two extra
      points of [score].
    - A raised exception is the left injection of a sum; the kind of the
      exception is kept ([exn]).
    - The in-place mutation of the board by [push]/[pop] is explicit state
      passing: a computation takes the board and returns its outcome
      together with the board it leaves behind, also when it raises.
    - python-chess is not part of the program.  Its elementary tables
      (square names, bit masks, piece types) are written out; its rules
      (legal moves, apply, undo, checkmate, game over) are parameters of
      the development, collected in the class [RulesEngine]. *)

From Stdlib Require Import ZArith Lia String Ascii List Bool.
From Stdlib Require Import Decimal DecimalZ.
From stdpp Require Import base option list gmap.

Local Open Scope Z_scope.

(** ** Exceptions *)

Inductive exn : Type :=
| KeyError
| IndexError
| ValueError
| OverflowError
| EngineError.

#[global] Instance exn_eq_dec : EqDecision exn.
Proof. solve_decision. Defined.

(** [res A] is the outcome of a call that may raise. *)
Definition res (A : Type) : Type := exn + A.

Definition rbind {A B : Type} (r : res A) (k : A -> res B) : res B :=
  match r with
  | inl e => inl e
  | inr a => k a
  end.

Declare Scope res_scope.
Delimit Scope res_scope with res.
Notation "x <-? r ; k" := (rbind r (fun x => k))
  (at level 100, r at next level, right associativity) : res_scope.

(** ** Python strings *)

Module PyStr.

Definition pystr : Type := list Z.

Definition str (s : string) : pystr :=
  List.map (fun a => Z.of_N (N_of_ascii a)) (list_ascii_of_string s).

Definition underscore : Z := 95.

(** [s.split(sep)] for a separator of one character: [acc] holds the
    current field in reverse. *)
Fixpoint split_go (sep : Z) (acc : pystr) (s : pystr) : list pystr :=
  match s with
  | [] => [rev acc]
  | c :: s' =>
      if c =? sep then rev acc :: split_go sep [] s'
      else split_go sep (c :: acc) s'
  end.

Definition split (sep : Z) (s : pystr) : list pystr := split_go sep [] s.

(** [s.startswith(p)] *)
Fixpoint startswith (p s : pystr) : bool :=
  match p, s with
  | [], _ => true
  | _ :: _, [] => false
  | a :: p', b :: s' => (a =? b) && startswith p' s'
  end.

(** The white space [int] skips around a number: the six ASCII blanks, and
    the Unicode spaces beyond ASCII.  (The separators U+001C to U+001F
    count as space for [str.isspace], not for [int].) *)
Definition is_space (c : Z) : bool :=
  ((9 <=? c) && (c <=? 13)) || (c =? 32)
  || (c =? 133) || (c =? 160) || (c =? 5760)
  || ((8192 <=? c) && (c <=? 8202))
  || (c =? 8232) || (c =? 8233) || (c =? 8239) || (c =? 8287)
  || (c =? 12288).

(** The decimal digits of Unicode (category Nd of Unicode 14, the table of
    CPython 3.11): the code point of the zero of each script; its nine
    successors are the digits one to nine. *)
Definition DECIMAL_ZEROS : list Z :=
  [ 48; 1632; 1776; 1984; 2406; 2534; 2662; 2790; 2918; 3046; 3174; 3302;
    3430; 3558; 3664; 3792; 3872; 4160; 4240; 6112; 6160; 6470; 6608; 6784;
    6800; 6992; 7088; 7232; 7248; 42528; 43216; 43264; 43472; 43504; 43600;
    44016; 65296; 66720; 68912; 69734; 69872; 69942; 70096; 70384; 70736;
    70864; 71248; 71360; 71472; 71904; 72016; 72784; 73040; 73120; 92768;
    92864; 93008; 120782; 120792; 120802; 120812; 120822; 123200; 123632;
    125264; 130032 ].

Fixpoint decimal_in (zeros : list Z) (c : Z) : option Z :=
  match zeros with
  | [] => None
  | z :: zeros' =>
      if (z <=? c) && (c <=? z + 9) then Some (c - z) else decimal_in zeros' c
  end.

(** The value of a character as a decimal digit, if it is one. *)
Definition decimal (c : Z) : option Z := decimal_in DECIMAL_ZEROS c.

Fixpoint lstrip (s : pystr) : pystr :=
  match s with
  | c :: s' => if is_space c then lstrip s' else s
  | [] => []
  end.

Definition strip (s : pystr) : pystr := rev (lstrip (rev (lstrip s))).

(** The digits of a literal.  An underscore may group them: one at a
    time, between two digits. *)
Fixpoint digits_value (acc : Z) (s : pystr) : res Z :=
  match s with
  | [] => inr acc
  | c :: s' =>
      match decimal c with
      | Some v => digits_value (10 * acc + v) s'
      | None =>
          if c =? underscore then
            match s' with
            | c' :: _ =>
                match decimal c' with
                | Some _ => digits_value acc s'
                | None => inl ValueError
                end
            | [] => inl ValueError
            end
          else inl ValueError
      end
  end.

(** The longest literal [int] converts ([sys.int_max_str_digits]), in
    digits. *)
Definition MAX_STR_DIGITS : nat := 4300.

Definition unsigned_value (s : pystr) : res Z :=
  match s with
  | [] => inl ValueError
  | c :: _ =>
      match decimal c with
      | None => inl ValueError
      | Some _ =>
          if (MAX_STR_DIGITS <? length (filter (fun c => c <> underscore) s))%nat
          then inl ValueError
          else digits_value 0 s
      end
  end.

(** [int(s)] on a string: optional surrounding white space, an optional
    sign, then at least one and at most 4300 decimal digits, of any
    script. *)
Definition int (s : pystr) : res Z :=
  match strip s with
  | 43 :: d => unsigned_value d
  | 45 :: d => rbind (unsigned_value d) (fun n => inr (- n))
  | d => unsigned_value d
  end.

(** [chr(n)]: a code point, [ValueError] outside [range(0x110000)],
    [OverflowError] when [n] does not fit a C int. *)
Definition chr (n : Z) : res Z :=
  if (n <? - 2147483648) || (2147483647 <? n) then inl OverflowError
  else if (n <? 0) || (1114111 <? n) then inl ValueError
  else inr n.

(** [ord(c)] of a one-character string. *)
Definition ord (c : Z) : Z := c.

Fixpoint uint_digits (d : Decimal.uint) : pystr :=
  match d with
  | Nil => []
  | D0 d' => 48 :: uint_digits d'
  | D1 d' => 49 :: uint_digits d'
  | D2 d' => 50 :: uint_digits d'
  | D3 d' => 51 :: uint_digits d'
  | D4 d' => 52 :: uint_digits d'
  | D5 d' => 53 :: uint_digits d'
  | D6 d' => 54 :: uint_digits d'
  | D7 d' => 55 :: uint_digits d'
  | D8 d' => 56 :: uint_digits d'
  | D9 d' => 57 :: uint_digits d'
  end.

(** [str(n)] of an integer, as an f-string field formats it. *)
Definition of_int (n : Z) : pystr :=
  match Z.to_int n with
  | Decimal.Pos d => uint_digits d
  | Decimal.Neg d => 45 :: uint_digits d
  end.

(** [s[i]] for a non-negative index. *)
Definition index (s : pystr) (i : nat) : res Z :=
  match s !! i with
  | Some c => inr c
  | None => inl IndexError
  end.

End PyStr.

Import PyStr.

(** ** Coordinate helpers *)

(** [map_to_algebraic]: the board of the client names a square ["x_y"],
    python-chess names it by a letter and a digit. *)
Definition map_to_algebraic (pos : pystr) : res pystr :=
  match split underscore pos with
  | [sx; sy] =>
      (x <-? int sx;
       y <-? int sy;
       col <-? chr (96 + x);
       inr (col :: of_int y))%res
  | _ =>
      (* too few or too many fields to unpack; a field that is not a
         number raises the same [ValueError] first *)
      inl ValueError
  end.

Definition map_from_algebraic (square_name : pystr) : res pystr :=
  (col_char <-? index square_name 0;
   row_char <-? index square_name 1;
   let x := ord col_char - 96 in
   y <-? int [row_char];
   inr (of_int x ++ underscore :: of_int y))%res.

(** ** python-chess: elementary tables *)

Module chess.

Inductive PieceType : Type := PAWN | KNIGHT | BISHOP | ROOK | QUEEN | KING.

#[global] Instance PieceType_eq_dec : EqDecision PieceType.
Proof. solve_decision. Defined.

Definition Color : Type := bool.
Definition WHITE : Color := true.
Definition BLACK : Color := false.

Record Piece : Type := mkPiece { piece_type : PieceType; color : Color }.

#[global] Instance Piece_eq_dec : EqDecision Piece.
Proof. solve_decision. Defined.

Definition FILE_NAMES : pystr := str "abcdefgh".
Definition RANK_NAMES : pystr := str "12345678".

(** [SQUARE_NAMES = [f + r for r in RANK_NAMES for f in FILE_NAMES]] *)
Definition SQUARE_NAMES : list pystr :=
  List.flat_map (fun r => List.map (fun f => [f; r]) FILE_NAMES) RANK_NAMES.

(** [SQUARES = list(range(64))] *)
Definition SQUARES : list Z := seqZ 0 64.

Fixpoint list_index (name : pystr) (l : list pystr) (i : Z) : res Z :=
  match l with
  | [] => inl ValueError
  | n :: l' => if bool_decide (n = name) then inr i else list_index name l' (i + 1)
  end.

(** [parse_square(name) = SQUARE_NAMES.index(name)] *)
Definition parse_square (name : pystr) : res Z := list_index name SQUARE_NAMES 0.

(** [square_name(square) = SQUARE_NAMES[square]]; a negative index counts
    from the end of the table. *)
Definition square_name (square : Z) : res pystr :=
  let i := if square <? 0 then square + 64 else square in
  if i <? 0 then inl IndexError
  else match SQUARE_NAMES !! Z.to_nat i with
       | Some n => inr n
       | None => inl IndexError
       end.

Definition BB_A1 : Z := Z.shiftl 1 0.
Definition BB_H1 : Z := Z.shiftl 1 7.
Definition BB_A8 : Z := Z.shiftl 1 56.
Definition BB_H8 : Z := Z.shiftl 1 63.

(** A move; [bool(move)] is false for the null move only. *)
Record Move : Type := mkMove {
  from_square : Z;
  to_square : Z;
  promotion : option PieceType;
  drop : option PieceType
}.

#[global] Instance Move_eq_dec : EqDecision Move.
Proof. solve_decision. Defined.

Definition Move_bool (m : Move) : bool :=
  negb (from_square m =? 0) || negb (to_square m =? 0)
  || bool_decide (is_Some (promotion m)) || bool_decide (is_Some (drop m)).

(** The part of a [chess.Board] the program reads and writes, and the rest
    of it ([engine_state]: undo stack, clocks, en-passant square), which
    only python-chess touches. *)
Record Board (ES : Type) : Type := mkBoard {
  piece_map : gmap Z Piece;
  castling_rights : Z;
  turn : Color;
  engine_state : ES
}.

Arguments mkBoard {ES}.
Arguments piece_map {ES}.
Arguments castling_rights {ES}.
Arguments turn {ES}.
Arguments engine_state {ES}.

Definition piece_at {ES} (board : Board ES) (square : Z) : option Piece :=
  piece_map board !! square.

Definition set_piece_at {ES} (board : Board ES) (square : Z) (piece : Piece) : Board ES :=
  mkBoard (<[square := piece]> (piece_map board)) (castling_rights board)
          (turn board) (engine_state board).

Definition set_castling_rights {ES} (board : Board ES) (rights : Z) : Board ES :=
  mkBoard (piece_map board) rights (turn board) (engine_state board).

Definition set_turn {ES} (board : Board ES) (c : Color) : Board ES :=
  mkBoard (piece_map board) (castling_rights board) c (engine_state board).

End chess.

Import chess.

(** ** Scores: integers and the two infinities of [math.inf] *)

Inductive score : Type := NegInf | Fin (z : Z) | PosInf.

#[global] Instance score_eq_dec : EqDecision score.
Proof. solve_decision. Defined.

(** [a < b] *)
Definition sltb (a b : score) : bool :=
  match a, b with
  | NegInf, NegInf => false
  | NegInf, _ => true
  | Fin _, NegInf => false
  | Fin x, Fin y => x <? y
  | Fin _, PosInf => true
  | PosInf, _ => false
  end.

(** [a <= b] *)
Definition sleb (a b : score) : bool := negb (sltb b a).

(** [max(a, b)] keeps [a] unless [b] is greater; [min(a, b)] keeps [a]
    unless [b] is smaller. *)
Definition smax (a b : score) : score := if sltb a b then b else a.
Definition smin (a b : score) : score := if sltb b a then b else a.

(** The order of scores is the order of the pairs [(tier, finite_part)]. *)
Definition tier (s : score) : Z :=
  match s with NegInf => -1 | Fin _ => 0 | PosInf => 1 end.

Definition finite_part (s : score) : Z :=
  match s with Fin z => z | _ => 0 end.

(** ** The piece inventory of a request *)

Record PieceRecord : Type := mkPieceRecord {
  type : pystr;
  position : pystr;
  captured : bool;
  moved : bool
}.

(** A dictionary, as the list of its items in insertion order (the keys
    of a dictionary are distinct). *)
Definition dict (V : Type) : Type := list (pystr * V).

(** [d[k]] *)
Fixpoint dict_get {V : Type} (d : dict V) (k : pystr) : res V :=
  match d with
  | [] => inl KeyError
  | (k', v) :: d' => if bool_decide (k' = k) then inr v else dict_get d' k
  end.

Definition type_map : dict PieceType :=
  [ (str "king", KING); (str "queen", QUEEN); (str "rook", ROOK);
    (str "bishop", BISHOP); (str "knight", KNIGHT); (str "pawn", PAWN) ].

(** ** The rules engine *)

(** A computation over the shared board: it returns a value or raises, and
    leaves a board behind in both cases. *)
Definition M (ES A : Type) : Type := Board ES -> res A * Board ES.

Definition ret {ES A : Type} (a : A) : M ES A := fun b => (inr a, b).

Definition bind {ES A B : Type} (c : M ES A) (k : A -> M ES B) : M ES B :=
  fun b =>
    match c b with
    | (inl e, b') => (inl e, b')
    | (inr a, b') => k a b'
    end.

Notation "x <- c ;; k" := (bind c (fun x => k))
  (at level 100, c at next level, right associativity).

(** What the program asks of python-chess.  [ES] is what a board keeps
    besides placement, castling rights and side to move; [empty_state] is
    that part of [chess.Board(None)]; [push] and [pop] mutate the board and
    may raise. *)
Class RulesEngine (ES : Type) : Type := {
  empty_state : ES;
  legal_moves : Board ES -> list Move;
  push : Move -> M ES unit;
  pop : M ES unit;
  is_checkmate : Board ES -> bool;
  is_game_over : Board ES -> bool
}.

(** ** The program *)

Section Search.

Context {ES : Type} {E : RulesEngine ES}.

Local Abbreviation board := (Board ES).
Local Abbreviation M := (M ES).

(** [chess.Board(None)]: no piece, no castling right, White to move. *)
Definition empty_board : board := mkBoard ∅ 0 WHITE empty_state.

(** *** Board reconstruction *)

(** The body of the loop over [pieces_data.items()] for one record. *)
Definition place_piece (b : board) (piece : PieceRecord) : res board :=
  if negb (captured piece) then
    let color := if startswith (str "w_") (type piece) then WHITE else BLACK in
    (p_type <-? match split underscore (type piece) with
                | _ :: t :: _ => inr t
                | _ => inl IndexError
                end;
     alg_pos <-? map_to_algebraic (position piece);
     square <-? parse_square alg_pos;
     pt <-? dict_get type_map p_type;
     inr (set_piece_at b square (mkPiece pt color)))%res
  else inr b.

Fixpoint place_pieces (b : board) (items : dict PieceRecord) : res board :=
  match items with
  | [] => inr b
  | (key, piece) :: items' =>
      (b' <-? place_piece b piece; place_pieces b' items')%res
  end.

(** The castling rights of one side: [king], then the king-side rook
    [rook2] with mask [bb_h], then the queen-side rook [rook1] with mask
    [bb_a]; the rooks are read only when the king has not moved. *)
Definition side_castling (pieces_data : dict PieceRecord)
    (king rook2 rook1 : pystr) (bb_h bb_a : Z) (rights : Z) : res Z :=
  (k <-? dict_get pieces_data king;
   if negb (moved k) then
     r2 <-? dict_get pieces_data rook2;
     let rights := if negb (moved r2) then Z.lor rights bb_h else rights in
     r1 <-? dict_get pieces_data rook1;
     let rights := if negb (moved r1) then Z.lor rights bb_a else rights in
     inr rights
   else inr rights)%res.

Definition reconstruct_board (pieces_data : dict PieceRecord) : res board :=
  (b <-? place_pieces empty_board pieces_data;
   let rights := 0 in
   rights <-? side_castling pieces_data (str "w_king") (str "w_rook2")
                (str "w_rook1") BB_H1 BB_A1 rights;
   rights <-? side_castling pieces_data (str "b_king") (str "b_rook2")
                (str "b_rook1") BB_H8 BB_A8 rights;
   inr (set_turn (set_castling_rights b rights) BLACK))%res.

(** *** Evaluation *)

Definition values (pt : PieceType) : Z :=
  match pt with
  | PAWN => 1 | KNIGHT => 3 | BISHOP => 3 | ROOK => 5 | QUEEN => 9 | KING => 0
  end.

(** One iteration of the loop over [chess.SQUARES]. *)
Definition evaluate_square (b : board) (evaluation : Z) (square : Z) : Z :=
  match piece_at b square with
  | Some piece =>
      let val := values (piece_type piece) in
      if bool_decide (color piece = WHITE) then evaluation - val
      else evaluation + val
  | None => evaluation
  end.

Definition evaluate_board (b : board) : Z :=
  if is_checkmate b then
    if turn b then -9999 else 9999
  else
    fold_left (evaluate_square b) SQUARES 0.

(** *** Search *)

(** The loop of a maximizing node; [rec alpha beta] is the recursive call
    on the child, at the depth below. *)
Fixpoint max_loop (rec : score -> score -> M score) (moves : list Move)
    (alpha beta max_eval : score) : M score :=
  match moves with
  | [] => ret max_eval
  | move :: moves' =>
      _ <- push move ;;
      eval <- rec alpha beta ;;
      _ <- pop ;;
      let max_eval := smax max_eval eval in
      let alpha := smax alpha eval in
      if sleb beta alpha then ret max_eval
      else max_loop rec moves' alpha beta max_eval
  end.

(** The loop of a minimizing node. *)
Fixpoint min_loop (rec : score -> score -> M score) (moves : list Move)
    (alpha beta min_eval : score) : M score :=
  match moves with
  | [] => ret min_eval
  | move :: moves' =>
      _ <- push move ;;
      eval <- rec alpha beta ;;
      _ <- pop ;;
      let min_eval := smin min_eval eval in
      let beta := smin beta eval in
      if sleb beta alpha then ret min_eval
      else min_loop rec moves' alpha beta min_eval
  end.

(** [minimax(board, depth, alpha, beta, maximizing)].  The depth is a
    number of plies: the program starts it at 2 and counts down to 0. *)
Fixpoint minimax (depth : nat) (alpha beta : score) (maximizing : bool) : M score :=
  match depth with
  | O => fun b => ret (Fin (evaluate_board b)) b
  | S depth' => fun b =>
      if is_game_over b then ret (Fin (evaluate_board b)) b
      else
        let moves := legal_moves b in
        if maximizing then
          max_loop (fun a b' => minimax depth' a b' false) moves alpha beta NegInf b
        else
          min_loop (fun a b' => minimax depth' a b' true) moves alpha beta PosInf b
  end.

(** *** The request handler *)

(** The loop of [get_move] over the legal moves of the root. *)
Fixpoint root_loop (moves : list Move) (best_move : option Move)
    (best_value : score) : M (option Move) :=
  match moves with
  | [] => ret best_move
  | move :: moves' =>
      _ <- push move ;;
      val <- minimax 2 NegInf PosInf false ;;
      _ <- pop ;;
      if sltb best_value val then root_loop moves' (Some move) val
      else root_loop moves' best_move best_value
  end.

Inductive response : Type :=
| Reply (src dst : pystr)       (* {"from": src, "to": dst} *)
| GameOverOrNoMove              (* {"error": "Game Over or No Move"} *)
| Raised (e : exn).             (* {"error": str(e)} *)

(** The reply for a move: its two squares in the naming of the client. *)
Definition reply (best_move : Move) : response :=
  match (n <-? square_name (from_square best_move);
         src <-? map_from_algebraic n;
         n' <-? square_name (to_square best_move);
         dst <-? map_from_algebraic n';
         inr (src, dst))%res with
  | inr (src, dst) => Reply src dst
  | inl e => Raised e
  end.

(** The search and the answer, on the board [reconstruct_board] built.
    [board.legal_moves] is read while the loop runs; the list at entry is
    the same list as long as every move applied is undone. *)
Definition answer (b : board) : response :=
  match root_loop (legal_moves b) None NegInf b with
  | (inl e, _) => Raised e
  | (inr None, _) => GameOverOrNoMove
  | (inr (Some best_move), _) =>
      if Move_bool best_move then reply best_move else GameOverOrNoMove
  end.

(** [get_move], from the ['pieces'] entry of the request. *)
Definition get_move (pieces : dict PieceRecord) : response :=
  match reconstruct_board pieces with
  | inl e => Raised e
  | inr b => answer b
  end.

End Search.

(** ** Reference definitions *)

Section Reference.

Context {ES : Type} {E : RulesEngine ES}.

Local Abbreviation board := (Board ES).

(** The external name ["f_r"] of the pair [(f, r)]. *)
Definition pair_name (f r : Z) : pystr := of_int f ++ underscore :: of_int r.

(** The external name of the square with index [sq] of python-chess. *)
Definition square_pair_name (sq : Z) : pystr := pair_name (sq mod 8 + 1) (sq / 8 + 1).

(** The material of one colour: the values of its pieces over the 64
    squares. *)
Definition side_value (c : Color) (b : board) (square : Z) : Z :=
  match piece_at b square with
  | Some piece => if bool_decide (color piece = c) then values (piece_type piece) else 0
  | None => 0
  end.

Definition material_of (c : Color) (b : board) : Z :=
  foldr Z.add 0 (List.map (side_value c b) SQUARES).

(** Material from Black's point of view. *)
Definition material (b : board) : Z := material_of BLACK b - material_of WHITE b.

(** Whether the castling rights of a board contain the right of a mask. *)
Definition grants (b : board) (bb : Z) : bool := negb (Z.land (castling_rights b) bb =? 0).

(** The [moved] field of a named record, if the record is there. *)
Definition moved_of (pieces_data : dict PieceRecord) (key : pystr) : option bool :=
  match dict_get pieces_data key with
  | inr r => Some (moved r)
  | inl _ => None
  end.

(** The four castling rights: the king record, the rook record and the
    mask of each. *)
Definition castling_table : list (pystr * pystr * Z) :=
  [ (str "w_king", str "w_rook2", BB_H1); (str "w_king", str "w_rook1", BB_A1);
    (str "b_king", str "b_rook2", BB_H8); (str "b_king", str "b_rook1", BB_A8) ].

Definition castling_keys : list pystr :=
  [ str "w_king"; str "w_rook1"; str "w_rook2";
    str "b_king"; str "b_rook1"; str "b_rook2" ].

(** The rights one side adds, from the [moved] fields alone; [None] when a
    record that is read is not there. *)
Definition side_rights (pieces_data : dict PieceRecord)
    (king rook2 rook1 : pystr) (bb_h bb_a : Z) (rights : Z) : option Z :=
  match moved_of pieces_data king with
  | None => None
  | Some true => Some rights
  | Some false =>
      match moved_of pieces_data rook2, moved_of pieces_data rook1 with
      | Some m2, Some m1 =>
          let rights := if m2 then rights else Z.lor rights bb_h in
          Some (if m1 then rights else Z.lor rights bb_a)
      | _, _ => None
      end
  end.

Definition all_rights (pieces_data : dict PieceRecord) : option Z :=
  match side_rights pieces_data (str "w_king") (str "w_rook2") (str "w_rook1")
          BB_H1 BB_A1 0 with
  | Some rights =>
      side_rights pieces_data (str "b_king") (str "b_rook2") (str "b_rook1")
        BB_H8 BB_A8 rights
  | None => None
  end.

(** Whether every record the castling code reads is there: both kings,
    and the two rooks of a side whose king has not moved. *)
Definition side_present (pieces_data : dict PieceRecord) (king rook2 rook1 : pystr) : bool :=
  match moved_of pieces_data king with
  | None => false
  | Some true => true
  | Some false =>
      bool_decide (is_Some (moved_of pieces_data rook2))
      && bool_decide (is_Some (moved_of pieces_data rook1))
  end.

Definition records_present (pieces_data : dict PieceRecord) : bool :=
  side_present pieces_data (str "w_king") (str "w_rook2") (str "w_rook1")
  && side_present pieces_data (str "b_king") (str "b_rook2") (str "b_rook1").

(** Where the loop of [reconstruct_board] puts a record: nowhere when the
    record is captured, else a square and a piece, unless it raises. *)
Definition landing (piece : PieceRecord) : res (option (Z * Piece)) :=
  if captured piece then inr None
  else
    (p_type <-? match split underscore (type piece) with
                | _ :: t :: _ => inr t
                | _ => inl IndexError
                end;
     alg_pos <-? map_to_algebraic (position piece);
     square <-? parse_square alg_pos;
     pt <-? dict_get type_map p_type;
     inr (Some (square,
                mkPiece pt (if startswith (str "w_") (type piece) then WHITE else BLACK))))%res.

(** The board a move leads to. *)
Definition child (b : board) (m : Move) : board := snd (push m b).

(** Minimax over the whole tree, without bounds: the value of a node is
    the evaluation at depth 0 or when the game is over, and otherwise the
    greatest (for the maximizer) or least (for the minimizer) value of its
    children. *)
Fixpoint full_minimax (depth : nat) (maximizing : bool) (b : board) : score :=
  match depth with
  | O => Fin (evaluate_board b)
  | S depth' =>
      if is_game_over b then Fin (evaluate_board b)
      else if maximizing then
        foldl smax NegInf (List.map (fun m => full_minimax depth' false (child b m)) (legal_moves b))
      else
        foldl smin PosInf (List.map (fun m => full_minimax depth' true (child b m)) (legal_moves b))
  end.

(** The values the two loops of [minimax] compute when no call raises:
    the same scan with the same bounds, on the children's values. *)
Fixpoint ab_max (rec : score -> score -> Move -> score) (moves : list Move)
    (alpha beta max_eval : score) : score :=
  match moves with
  | [] => max_eval
  | move :: moves' =>
      let eval := rec alpha beta move in
      let max_eval := smax max_eval eval in
      let alpha := smax alpha eval in
      if sleb beta alpha then max_eval else ab_max rec moves' alpha beta max_eval
  end.

Fixpoint ab_min (rec : score -> score -> Move -> score) (moves : list Move)
    (alpha beta min_eval : score) : score :=
  match moves with
  | [] => min_eval
  | move :: moves' =>
      let eval := rec alpha beta move in
      let min_eval := smin min_eval eval in
      let beta := smin beta eval in
      if sleb beta alpha then min_eval else ab_min rec moves' alpha beta min_eval
  end.

Fixpoint alphabeta (depth : nat) (alpha beta : score) (maximizing : bool) (b : board) : score :=
  match depth with
  | O => Fin (evaluate_board b)
  | S depth' =>
      if is_game_over b then Fin (evaluate_board b)
      else if maximizing then
        ab_max (fun a b' m => alphabeta depth' a b' false (child b m)) (legal_moves b) alpha beta NegInf
      else
        ab_min (fun a b' m => alphabeta depth' a b' true (child b m)) (legal_moves b) alpha beta PosInf
  end.

(** The choice of the root loop, from the values of the root moves: the
    first move whose value exceeds every value before it. *)
Fixpoint root_pick (vals : Move -> score) (moves : list Move)
    (best_move : option Move) (best_value : score) : option Move :=
  match moves with
  | [] => best_move
  | move :: moves' =>
      if sltb best_value (vals move) then root_pick vals moves' (Some move) (vals move)
      else root_pick vals moves' best_move best_value
  end.

(** What a fail-soft search with window [(alpha, beta)] promises about its
    result [e], for a node of true value [v]. *)
Definition within (alpha beta v e : score) : Prop :=
  (sleb e alpha = true -> sleb v e = true)
  /\ (sltb alpha e = true -> sltb e beta = true -> v = e)
  /\ (sleb beta e = true -> sleb e v = true).

(** *** The contract of the rules engine *)

(** A move the engine lists can be applied, and undoing it gives the
    board back. *)
Definition apply_undo_law : Prop :=
  forall (b : board) (m : Move), m ∈ legal_moves b ->
    exists b', push m b = (inr tt, b') /\ pop b' = (inr tt, b).

(** Whenever a move was applied and then undone, the board is back. *)
Definition undo_law : Prop :=
  forall (m : Move) (b b' b'' : board),
    push m b = (inr tt, b') -> pop b' = (inr tt, b'') -> b'' = b.

(** A position without legal moves is over (checkmate or stalemate). *)
Definition no_move_law : Prop :=
  forall b : board, legal_moves b = [] -> is_game_over b = true.

(** A legal move goes from a square of the board to another one. *)
Definition move_squares_law : Prop :=
  forall (b : board) (m : Move), m ∈ legal_moves b ->
    0 <= from_square m < 64 /\ 0 <= to_square m < 64
    /\ from_square m <> to_square m.

End Reference.

(** ** More reference definitions *)

(** The square a record lands on, if it lands. *)
Definition landing_square (piece : PieceRecord) : option Z :=
  match landing piece with
  | inr (Some (sq, _)) => Some sq
  | _ => None
  end.

(** The squares the records of an inventory land on, in order. *)
Definition occupied (pieces_data : dict PieceRecord) : list Z :=
  omap (fun kr => landing_square (snd kr)) pieces_data.

(** The four masks together. *)
Definition BB_CORNERS : Z := Z.lor (Z.lor BB_A1 BB_H1) (Z.lor BB_A8 BB_H8).

(** The position with the colours of all pieces exchanged. *)
Definition swap_piece (p : Piece) : Piece := mkPiece (piece_type p) (negb (color p)).

Definition swap_colors {ES : Type} (b : Board ES) : Board ES :=
  mkBoard (swap_piece <$> piece_map b) (castling_rights b) (turn b) (engine_state b).

(** Scores that are integers between the two checkmate scores. *)
Definition in_range (s : score) : Prop :=
  exists z, s = Fin z /\ -9999 <= z <= 9999.

(** ** An engine that keeps a log *)

(** Any engine can be made to record what is applied and undone: the log
    is one more component of the hidden state, and grows by one event at
    each [push] and each [pop] that returns. *)
Inductive event : Type := Applied (m : Move) | Undone.

(** Logs in which every apply is closed by one undo, in nested fashion. *)
Inductive bracketed : list event -> Prop :=
| bracketed_nil : bracketed []
| bracketed_cons (m : Move) (inner rest : list event) :
    bracketed inner -> bracketed rest ->
    bracketed (Applied m :: inner ++ Undone :: rest).

Section Traced.

Context {ES : Type} (E : RulesEngine ES).

Definition forget (b : Board (ES * list event)) : Board ES :=
  mkBoard (piece_map b) (castling_rights b) (turn b) (fst (engine_state b)).

Definition log (b : Board (ES * list event)) : list event := snd (engine_state b).

Definition with_log (b : Board ES) (l : list event) : Board (ES * list event) :=
  mkBoard (piece_map b) (castling_rights b) (turn b) (engine_state b, l).

(** Run an operation of [E] and record [ev] if it returns. *)
Definition logging (ev : event) (op : M ES unit) : M (ES * list event) unit :=
  fun b =>
    match op (forget b) with
    | (inr tt, b') => (inr tt, with_log b' (log b ++ [ev]))
    | (inl e, b') => (inl e, with_log b' (log b))
    end.

Definition traced : RulesEngine (ES * list event) := {|
  empty_state := (empty_state, []);
  legal_moves := fun b => legal_moves (forget b);
  push := fun m => logging (Applied m) (push m);
  pop := logging Undone pop;
  is_checkmate := fun b => is_checkmate (forget b);
  is_game_over := fun b => is_game_over (forget b)
|}.

End Traced.

(** ** A scripted rules engine *)

(** A stand-in for python-chess on one small game: Black (king g3, queen
    a2) against the white king on h1, Black to move.  The engine lists a
    scripted choice of moves at each ply, moves the pieces, keeps an undo
    stack, and knows the one mate of the game (queen to g2). *)
Module Scripted.

Definition snapshot : Type := gmap Z Piece * Z * Color.
Definition state : Type := list snapshot.

Definition move_piece (pm : gmap Z Piece) (m : Move) : gmap Z Piece :=
  match pm !! from_square m with
  | Some p => <[to_square m := p]> (delete (from_square m) pm)
  | None => pm
  end.

Definition do_push (m : Move) : M state unit := fun b =>
  (inr tt,
   mkBoard (move_piece (piece_map b) m) (castling_rights b) (negb (turn b))
           ((piece_map b, castling_rights b, turn b) :: engine_state b)).

Definition do_pop : M state unit := fun b =>
  match engine_state b with
  | [] => (inl IndexError, b)
  | (pm, cr, t) :: st => (inr tt, mkBoard pm cr t st)
  end.

Definition simple_move (src dst : Z) : Move := mkMove src dst None None.

(** a2-g2 (mate), g3-f3, h1-g1 *)
Definition Qa2g2 : Move := simple_move 8 14.
Definition Kg3f3 : Move := simple_move 22 21.
Definition Kh1g1 : Move := simple_move 7 6.

(** Black chooses between the mate and a king move; after the king move
    White has one reply, and then Black has the mate only. *)
Definition script (ply : nat) : list Move :=
  match ply with
  | 0%nat => [Qa2g2; Kg3f3]
  | 1%nat => [Kh1g1]
  | 2%nat => [Qa2g2]
  | _ => []
  end.

(** White: king h1.  Black: king g3, queen g2.  White is mated. *)
Definition mate_map : gmap Z Piece :=
  <[7 := mkPiece KING WHITE]>
    (<[22 := mkPiece KING BLACK]> (<[14 := mkPiece QUEEN BLACK]> ∅)).

(** White: king g1.  Black: king f3, queen g2.  White is mated. *)
Definition late_mate_map : gmap Z Piece :=
  <[6 := mkPiece KING WHITE]>
    (<[21 := mkPiece KING BLACK]> (<[14 := mkPiece QUEEN BLACK]> ∅)).

Definition mated (b : Board state) : bool :=
  (bool_decide (piece_map b = mate_map) || bool_decide (piece_map b = late_mate_map))
  && bool_decide (turn b = WHITE).

(** White: king h1.  Black: king f2, queen g3.  White, to move, is not in
    check and has no move. *)
Definition stalemate_map : gmap Z Piece :=
  <[7 := mkPiece KING WHITE]>
    (<[13 := mkPiece KING BLACK]> (<[22 := mkPiece QUEEN BLACK]> ∅)).

Definition stalemated (b : Board state) : bool :=
  bool_decide (piece_map b = stalemate_map) && bool_decide (turn b = WHITE).

Definition moves_of (b : Board state) : list Move :=
  if mated b || stalemated b then [] else script (length (engine_state b)).

Definition engine : RulesEngine state := {|
  empty_state := [];
  legal_moves := moves_of;
  push := do_push;
  pop := do_pop;
  is_checkmate := mated;
  is_game_over := fun b => bool_decide (moves_of b = [])
|}.

(** The same engine, except that applying a move at the second ply
    raises. *)
Definition faulty_push (m : Move) : M state unit := fun b =>
  if bool_decide (length (engine_state b) = 1%nat) then (inl EngineError, b)
  else do_push m b.

Definition faulty_engine : RulesEngine state := {|
  empty_state := [];
  legal_moves := moves_of;
  push := faulty_push;
  pop := do_pop;
  is_checkmate := mated;
  is_game_over := fun b => bool_decide (moves_of b = [])
|}.

Definition record (t pos : string) (c m : bool) : PieceRecord :=
  mkPieceRecord (str t) (str pos) c m.

(** The inventory of the game: the three pieces, and the four rooks
    captured. *)
Definition pieces : dict PieceRecord :=
  [ (str "w_king", record "w_king" "8_1" false true);
    (str "b_king", record "b_king" "7_3" false true);
    (str "b_queen", record "b_queen" "1_2" false true);
    (str "w_rook1", record "w_rook" "1_1" true true);
    (str "w_rook2", record "w_rook" "8_1" true true);
    (str "b_rook1", record "b_rook" "1_8" true true);
    (str "b_rook2", record "b_rook" "8_8" true true) ].

(** The board of the game, Black to move. *)
Definition start : Board state :=
  mkBoard (<[8 := mkPiece QUEEN BLACK]>
             (<[22 := mkPiece KING BLACK]> (<[7 := mkPiece KING WHITE]> ∅)))
          0 BLACK [].

(** The board after the queen has mated: White to move. *)
Definition mate : Board state := snd (do_push Qa2g2 start).

(** A stalemate: White to move. *)
Definition stalemate : Board state := mkBoard stalemate_map 0 WHITE [].

(** The board after g3-f3: White to move. *)
Definition king_moved : Board state := snd (do_push Kg3f3 start).

(** The board after g3-f3 and h1-g1: Black to move, with one legal move,
    the mate. *)
Definition one_move : Board state :=
  snd (do_push Kh1g1 (snd (do_push Kg3f3 start))).

End Scripted.

(** ** Example inventories *)

Module Examples.

Import Scripted.

(** The white king and the rook of h1 have not moved; every other king
    and rook has. *)
Definition castle_pieces : dict PieceRecord :=
  [ (str "w_king", record "w_king" "5_1" false false);
    (str "w_rook1", record "w_rook" "1_1" false true);
    (str "w_rook2", record "w_rook" "8_1" false false);
    (str "b_king", record "b_king" "5_8" false true);
    (str "b_rook1", record "b_rook" "1_8" false true);
    (str "b_rook2", record "b_rook" "8_8" false true) ].

Definition castle_board : Board state :=
  mkBoard
    (<[63 := mkPiece ROOK BLACK]> (<[56 := mkPiece ROOK BLACK]>
     (<[60 := mkPiece KING BLACK]> (<[7 := mkPiece ROOK WHITE]>
     (<[0 := mkPiece ROOK WHITE]> (<[4 := mkPiece KING WHITE]> ∅))))))
    BB_H1 BLACK [].

(** The same inventory after the rook of h1 was captured where it stood. *)
Definition captured_rook_pieces : dict PieceRecord :=
  [ (str "w_king", record "w_king" "5_1" false false);
    (str "w_rook1", record "w_rook" "1_1" false true);
    (str "w_rook2", record "w_rook" "8_1" true false);
    (str "b_king", record "b_king" "5_8" false true);
    (str "b_rook1", record "b_rook" "1_8" false true);
    (str "b_rook2", record "b_rook" "8_8" false true) ].

Definition captured_rook_board : Board state :=
  mkBoard
    (<[63 := mkPiece ROOK BLACK]> (<[56 := mkPiece ROOK BLACK]>
     (<[60 := mkPiece KING BLACK]>
     (<[0 := mkPiece ROOK WHITE]> (<[4 := mkPiece KING WHITE]> ∅)))))
    BB_H1 BLACK [].

(** An inventory without the record [b_rook1]. *)
Definition no_rook_pieces : dict PieceRecord :=
  [ (str "w_king", record "w_king" "5_1" false false);
    (str "w_rook1", record "w_rook" "1_1" false true);
    (str "w_rook2", record "w_rook" "8_1" false false);
    (str "b_king", record "b_king" "5_8" false false);
    (str "b_rook2", record "b_rook" "8_8" false false) ].

(** An inventory without [b_rook1] whose black king has moved. *)
Definition moved_king_pieces : dict PieceRecord :=
  [ (str "w_king", record "w_king" "5_1" false false);
    (str "w_rook1", record "w_rook" "1_1" false true);
    (str "w_rook2", record "w_rook" "8_1" false false);
    (str "b_king", record "b_king" "5_8" false true);
    (str "b_rook2", record "b_rook" "8_8" false false) ].

Definition moved_king_board : Board state :=
  mkBoard
    (<[63 := mkPiece ROOK BLACK]>
     (<[60 := mkPiece KING BLACK]> (<[7 := mkPiece ROOK WHITE]>
     (<[0 := mkPiece ROOK WHITE]> (<[4 := mkPiece KING WHITE]> ∅)))))
    BB_H1 BLACK [].

(** Two records that are not captured stand on e1: the white king, then a
    black queen. *)
Definition duplicate_pieces : dict PieceRecord :=
  [ (str "w_king", record "w_king" "5_1" false true);
    (str "b_queen", record "b_queen" "5_1" false true);
    (str "b_king", record "b_king" "5_8" false true) ].

Definition duplicate_board : Board state :=
  mkBoard (<[60 := mkPiece KING BLACK]> (<[4 := mkPiece QUEEN BLACK]> ∅))
          0 BLACK [].

End Examples.

(** * Properties *)

(** ** Finite checks *)

(** A property with a boolean test holds on an interval as soon as the
    test passes on every point of it. *)
Lemma forall_range (P : Z -> bool) (lo n : Z) :
  forallb P (seqZ lo n) = true -> forall x, lo <= x < lo + n -> P x = true.
Proof.
  intros Hall x Hx.
  rewrite forallb_forall in Hall.
  apply Hall, list_elem_of_In, elem_of_seqZ. lia.
Qed.

Lemma forall_list {A : Type} (P : A -> bool) (l : list A) :
  forallb P l = true -> forall x, x ∈ l -> P x = true.
Proof.
  intros Hall x Hx. rewrite forallb_forall in Hall.
  now apply Hall, list_elem_of_In.
Qed.

(** Membership in a list that is written out. *)
Ltac in_list :=
  repeat first [apply list_elem_of_here | apply list_elem_of_further].

#[global] Instance res_eq_dec {A : Type} `{EqDecision A} : EqDecision (res A).
Proof. unfold res. apply _. Defined.

(** ** Coordinates *)

Lemma to_algebraic_pair (f r : Z) :
  1 <= f <= 8 -> 1 <= r <= 8 ->
  exists name, map_to_algebraic (pair_name f r) = inr name
            /\ parse_square name = inr (8 * (r - 1) + (f - 1))
            /\ map_from_algebraic name = inr (pair_name f r).
Proof.
  intros Hf Hr.
  pose (P := fun f r : Z =>
    match map_to_algebraic (pair_name f r) with
    | inr name =>
        bool_decide (parse_square name = inr (8 * (r - 1) + (f - 1)))
        && bool_decide (map_from_algebraic name = inr (pair_name f r))
    | inl _ => false
    end).
  assert (HP : P f r = true).
  { apply (forall_range (fun r => P f r) 1 8); [|lia].
    apply (forall_range (fun f => forallb (fun r => P f r) (seqZ 1 8)) 1 8); [|lia].
    vm_compute. reflexivity. }
  unfold P in HP. destruct (map_to_algebraic (pair_name f r)) as [|name]; [discriminate|].
  apply andb_prop in HP as [H1 H2].
  apply bool_decide_eq_true in H1, H2. eauto.
Qed.

Lemma from_algebraic_name (name : pystr) :
  name ∈ SQUARE_NAMES ->
  exists p, map_from_algebraic name = inr p /\ map_to_algebraic p = inr name.
Proof.
  intros Hn.
  pose (P := fun name : pystr =>
    match map_from_algebraic name with
    | inr p => bool_decide (map_to_algebraic p = inr name)
    | inl _ => false
    end).
  assert (HP : P name = true).
  { apply (forall_list P SQUARE_NAMES); [|exact Hn]. vm_compute. reflexivity. }
  unfold P in HP. destruct (map_from_algebraic name) as [|p]; [discriminate|].
  apply bool_decide_eq_true in HP. eauto.
Qed.

(** The name python-chess gives a square of the board, sent back to the
    client's naming. *)
Lemma square_name_pair (sq : Z) :
  0 <= sq < 64 ->
  rbind (square_name sq) map_from_algebraic = inr (square_pair_name sq).
Proof.
  intros Hsq.
  pose (P := fun sq : Z =>
    bool_decide (rbind (square_name sq) map_from_algebraic = inr (square_pair_name sq))).
  assert (HP : P sq = true).
  { apply (forall_range P 0 64); [|lia]. vm_compute. reflexivity. }
  now apply bool_decide_eq_true in HP.
Qed.

(** C9. For every pair [(f, r)] with [1 <= f, r <= 8], mapping the external
    name of the pair to the algebraic name and back gives the external name
    again; and for every algebraic square name of python-chess, mapping it
    to the external name and back gives the algebraic name again. *)
Theorem coordinate_round_trip (f r : Z) (name : pystr) :
  1 <= f <= 8 -> 1 <= r <= 8 -> name ∈ SQUARE_NAMES ->
  rbind (map_to_algebraic (pair_name f r)) map_from_algebraic = inr (pair_name f r)
  /\ rbind (map_from_algebraic name) map_to_algebraic = inr name.
Proof.
  intros Hf Hr Hn. split.
  - destruct (to_algebraic_pair f r Hf Hr) as (n & -> & _ & H). exact H.
  - destruct (from_algebraic_name name Hn) as (p & -> & H). exact H.
Qed.

Lemma coordinate_round_trip_witness :
  rbind (map_to_algebraic (pair_name 3 4)) map_from_algebraic = inr (pair_name 3 4)
  /\ rbind (map_from_algebraic (str "c4")) map_to_algebraic = inr (str "c4").
Proof.
  apply (coordinate_round_trip 3 4 (str "c4")); [lia | lia | ].
  apply list_elem_of_In. vm_compute. do 26 right. left. reflexivity.
Defined.

(** ** Board reconstruction *)

Section Reconstruction.

Context {ES : Type} {E : RulesEngine ES}.

Local Abbreviation board := (Board ES).

Lemma place_piece_landing (b : board) (piece : PieceRecord) :
  place_piece b piece =
  match landing piece with
  | inl e => inl e
  | inr None => inr b
  | inr (Some (sq, p)) => inr (set_piece_at b sq p)
  end.
Proof.
  unfold place_piece, landing.
  destruct (captured piece); cbn [negb]; [reflexivity|].
  repeat match goal with
         | |- rbind ?r _ = _ => destruct r; cbn [rbind]; [reflexivity|]
         end.
  reflexivity.
Qed.

Lemma side_castling_rights (pd : dict PieceRecord) (king rook2 rook1 : pystr)
    (bb_h bb_a rights : Z) :
  side_castling pd king rook2 rook1 bb_h bb_a rights =
  match side_rights pd king rook2 rook1 bb_h bb_a rights with
  | Some r => inr r
  | None => inl KeyError
  end.
Proof.
  unfold side_castling, side_rights, moved_of.
  assert (Hget : forall k e, dict_get pd k = inl e -> e = KeyError).
  { clear. intros k e. induction pd as [|[k' v] pd IH]; simpl.
    - congruence.
    - destruct (bool_decide (k' = k)); [discriminate|exact IH]. }
  destruct (dict_get pd king) as [e|k] eqn:Hk; simpl.
  { now rewrite (Hget _ _ Hk). }
  destruct (moved k); simpl; [reflexivity|].
  destruct (dict_get pd rook2) as [e|r2] eqn:H2; simpl.
  { now rewrite (Hget _ _ H2). }
  destruct (dict_get pd rook1) as [e|r1] eqn:H1; simpl.
  { now rewrite (Hget _ _ H1). }
  destruct (moved r2), (moved r1); reflexivity.
Qed.

(** [reconstruct_board] in one equation: the loop, then the rights. *)
Lemma reconstruct_board_eq (pd : dict PieceRecord) :
  reconstruct_board pd =
  match place_pieces empty_board pd with
  | inl e => inl e
  | inr b0 =>
      match all_rights pd with
      | Some rights => inr (set_turn (set_castling_rights b0 rights) BLACK)
      | None => inl KeyError
      end
  end.
Proof.
  unfold reconstruct_board, all_rights.
  destruct (place_pieces empty_board pd) as [e|b0]; simpl; [reflexivity|].
  rewrite !side_castling_rights.
  destruct (side_rights pd (str "w_king") _ _ _ _ _) as [r|]; simpl; [|reflexivity].
  rewrite side_castling_rights.
  destruct (side_rights pd (str "b_king") _ _ _ _ _); reflexivity.
Qed.

Lemma reconstruct_board_rights (pd : dict PieceRecord) (b : board) :
  reconstruct_board pd = inr b -> all_rights pd = Some (castling_rights b).
Proof.
  rewrite reconstruct_board_eq.
  destruct (place_pieces empty_board pd); [discriminate|].
  destruct (all_rights pd); [|discriminate].
  intros [= <-]. reflexivity.
Qed.

(** A right is in the rights exactly when the two records it depends on
    have not moved. *)
Lemma all_rights_grants (pd : dict PieceRecord) (rights : Z) (king rook : pystr) (bb : Z) :
  all_rights pd = Some rights ->
  (king, rook, bb) ∈ castling_table ->
  negb (Z.land rights bb =? 0) = true <->
  moved_of pd king = Some false /\ moved_of pd rook = Some false.
Proof.
  unfold all_rights, side_rights, castling_table.
  intros Hr Hin.
  repeat (apply elem_of_cons in Hin as [[= -> -> ->]|Hin]);
    [ | | | | apply elem_of_nil in Hin; contradiction ];
    destruct (moved_of pd (str "w_king")) as [[]|];
    destruct (moved_of pd (str "b_king")) as [[]|];
    try discriminate Hr;
    try (destruct (moved_of pd (str "w_rook2")) as [[]|]; try discriminate Hr;
         destruct (moved_of pd (str "w_rook1")) as [[]|]; try discriminate Hr);
    try (destruct (moved_of pd (str "b_rook2")) as [[]|]; try discriminate Hr;
         destruct (moved_of pd (str "b_rook1")) as [[]|]; try discriminate Hr);
    injection Hr as <-; vm_compute; intuition congruence.
Qed.

Lemma moved_of_get (pd : dict PieceRecord) (key : pystr) (r : PieceRecord) :
  dict_get pd key = inr r -> moved_of pd key = Some (moved r).
Proof. unfold moved_of. now intros ->. Qed.

(** C4. In a position [reconstruct_board] builds, a castling right is
    granted only if the king record and the rook record of that right both
    have [moved = false]; in particular, when the white king and the white
    king-side rook ([w_rook2]) have not moved and the four other records
    have, the rights are exactly the white king-side right. *)
Theorem castling_only_if_unmoved (pd : dict PieceRecord) (b : board) :
  reconstruct_board pd = inr b ->
  (forall king rook bb, (king, rook, bb) ∈ castling_table ->
     grants b bb = true ->
     moved_of pd king = Some false /\ moved_of pd rook = Some false)
  /\ (moved_of pd (str "w_king") = Some false ->
      moved_of pd (str "w_rook2") = Some false ->
      moved_of pd (str "w_rook1") = Some true ->
      moved_of pd (str "b_king") = Some true ->
      moved_of pd (str "b_rook2") = Some true ->
      moved_of pd (str "b_rook1") = Some true ->
      castling_rights b = BB_H1
      /\ grants b BB_H1 = true /\ grants b BB_A1 = false
      /\ grants b BB_H8 = false /\ grants b BB_A8 = false).
Proof.
  intros Hb. apply reconstruct_board_rights in Hb. split.
  - intros king rook bb Hin Hg.
    now apply (all_rights_grants pd _ king rook bb Hb Hin).
  - intros Hwk Hw2 Hw1 Hbk Hb2 Hb1.
    unfold all_rights, side_rights in Hb.
    rewrite Hwk, Hw2, Hw1, Hbk in Hb. injection Hb as Hb.
    unfold grants. rewrite <- Hb. vm_compute. auto.
Qed.

(** The rights are defined exactly when the records that are read are
    there. *)
Lemma records_present_rights (pd : dict PieceRecord) :
  records_present pd = true <-> is_Some (all_rights pd).
Proof.
  unfold records_present, side_present, all_rights, side_rights.
  repeat (case_match; simpl); split; intros Hyp;
    try discriminate; try reflexivity; try (eexists; reflexivity);
    try (destruct Hyp as [? Hyp]; discriminate Hyp).
Qed.

Lemma reconstruct_board_present (pd : dict PieceRecord) (b0 : board) :
  place_pieces empty_board pd = inr b0 ->
  records_present pd = true ->
  exists rights,
    reconstruct_board pd = inr (set_turn (set_castling_rights b0 rights) BLACK).
Proof.
  intros Hloop Hpres. rewrite reconstruct_board_eq, Hloop.
  apply records_present_rights in Hpres as [rights ->]. eauto.
Qed.

(** C5, as the code has it.  Once the loop over the records has passed,
    [reconstruct_board] raises [KeyError] exactly when a record it reads is
    missing: a king, or a rook of a side whose king has [moved = false].
    Otherwise it builds a position, in which a side whose king has moved
    has no right, whether its rook records are there or not. *)
Theorem missing_record_key_error (pd : dict PieceRecord) (b0 : board) :
  place_pieces empty_board pd = inr b0 ->
  (records_present pd = false /\ reconstruct_board pd = inl KeyError)
  \/ (records_present pd = true
      /\ exists b, reconstruct_board pd = inr b
           /\ forall king rook bb, (king, rook, bb) ∈ castling_table ->
                moved_of pd king = Some true -> grants b bb = false).
Proof.
  intros Hloop. rewrite reconstruct_board_eq, Hloop.
  destruct (all_rights pd) as [rights|] eqn:Hr.
  - right. split.
    + apply records_present_rights. rewrite Hr. eauto.
    + eexists; split; [reflexivity|].
      intros king rook bb Hin Hk. unfold grants. simpl.
      apply not_true_is_false. intros Hg.
      apply (all_rights_grants pd _ king rook bb Hr Hin) in Hg as [Hg _].
      congruence.
  - left. split; [|reflexivity].
    apply not_true_is_false. intros Hp.
    apply records_present_rights in Hp as [? Hp]. congruence.
Qed.

Lemma place_pieces_app (b : board) (l1 l2 : dict PieceRecord) :
  place_pieces b (l1 ++ l2) = rbind (place_pieces b l1) (fun b' => place_pieces b' l2).
Proof.
  revert b. induction l1 as [|[k r] l1 IH]; intros b; simpl; [reflexivity|].
  destruct (place_piece b r) as [e|b']; simpl; [reflexivity|apply IH].
Qed.

(** The loop passes when every record can be placed on its own. *)
Lemma place_pieces_ok (pd : dict PieceRecord) (b : board) :
  (forall k r, (k, r) ∈ pd -> exists o, landing r = inr o) ->
  exists b', place_pieces b pd = inr b'.
Proof.
  revert b. induction pd as [|[k r] pd IH]; intros b Hall; simpl.
  - eauto.
  - destruct (Hall k r) as [o Ho]; [left|].
    rewrite place_piece_landing, Ho.
    destruct o as [[sq p]|]; simpl; apply IH; intros; apply (Hall k0); now right.
Qed.

(** Records that land elsewhere leave a square as it is. *)
Lemma place_pieces_other (pd : dict PieceRecord) (b b' : board) (sq : Z) :
  place_pieces b pd = inr b' ->
  (forall k r p, (k, r) ∈ pd -> landing r <> inr (Some (sq, p))) ->
  piece_at b' sq = piece_at b sq.
Proof.
  revert b. induction pd as [|[k r] pd IH]; intros b Hrun Hno; simpl in Hrun.
  - now injection Hrun as <-.
  - rewrite place_piece_landing in Hrun.
    destruct (landing r) as [e|[[sq' p']|]] eqn:Hl; simpl in Hrun; [discriminate| |].
    + rewrite (IH _ Hrun); [|intros; apply (Hno k0); now right].
      unfold piece_at, set_piece_at; simpl.
      apply lookup_insert_ne. intros ->. apply (Hno k r p'); [left|exact Hl].
    + apply (IH _ Hrun). intros; apply (Hno k0); now right.
Qed.

(** C6, as the code has it.  Two records on one square do not stop the
    build: when every record can be placed on its own and the records the
    castling code reads are there, a position is built, and a square holds
    the piece of the last record, in the order of the inventory, that
    lands on it. *)
Theorem last_record_occupies (pd1 pd2 : dict PieceRecord) (key : pystr)
    (r : PieceRecord) (sq : Z) (p : Piece) :
  let pd := pd1 ++ (key, r) :: pd2 in
  (forall k r', (k, r') ∈ pd -> exists o, landing r' = inr o) ->
  records_present pd = true ->
  landing r = inr (Some (sq, p)) ->
  (forall k r' p', (k, r') ∈ pd2 -> landing r' <> inr (Some (sq, p'))) ->
  exists b, reconstruct_board pd = inr b /\ piece_at b sq = Some p.
Proof.
  intros pd Hall Hpres Hr Hlater.
  destruct (place_pieces_ok pd empty_board Hall) as [b0 Hb0].
  destruct (reconstruct_board_present pd b0 Hb0 Hpres) as [rights Hb].
  eexists; split; [exact Hb|].
  unfold pd in Hb0. rewrite place_pieces_app in Hb0.
  destruct (place_pieces empty_board pd1) as [e|b1]; simpl in Hb0; [discriminate|].
  rewrite place_piece_landing, Hr in Hb0. simpl in Hb0.
  change (piece_at b0 sq = Some p).
  rewrite (place_pieces_other pd2 _ b0 sq Hb0 Hlater).
  unfold piece_at, set_piece_at; simpl. apply lookup_insert_eq.
Qed.

(** C10. The castling rights of the built position depend on the
    inventory through the [moved] fields of the six castling records only:
    two inventories that agree on them give the same rights.  In
    particular the [captured] field plays no part: a rook record with
    [captured = true] and [moved = false] grants its right when the king
    has not moved. *)
Theorem castling_rights_from_moved_only (pd1 pd2 : dict PieceRecord) (b1 b2 : board) :
  reconstruct_board pd1 = inr b1 ->
  reconstruct_board pd2 = inr b2 ->
  (forall key, key ∈ castling_keys -> moved_of pd1 key = moved_of pd2 key) ->
  castling_rights b1 = castling_rights b2
  /\ (forall king rook bb r, (king, rook, bb) ∈ castling_table ->
        moved_of pd1 king = Some false ->
        dict_get pd1 rook = inr r -> captured r = true -> moved r = false ->
        grants b1 bb = true).
Proof.
  intros H1 H2 Hagree.
  apply reconstruct_board_rights in H1, H2. split.
  - assert (Heq : all_rights pd1 = all_rights pd2).
    { unfold all_rights, side_rights.
      rewrite !Hagree; [reflexivity| unfold castling_keys ..];
        in_list. }
    congruence.
  - intros king rook bb r Hin Hk Hr _ Hm.
    apply (all_rights_grants pd1 _ king rook bb H1 Hin).
    split; [exact Hk|]. rewrite (moved_of_get _ _ _ Hr). now f_equal.
Qed.

End Reconstruction.

Lemma castling_only_if_unmoved_witness :
  (moved_of Examples.castle_pieces (str "w_king") = Some false
   /\ moved_of Examples.castle_pieces (str "w_rook2") = Some false)
  /\ (castling_rights Examples.castle_board = BB_H1
      /\ grants Examples.castle_board BB_H1 = true
      /\ grants Examples.castle_board BB_A1 = false
      /\ grants Examples.castle_board BB_H8 = false
      /\ grants Examples.castle_board BB_A8 = false).
Proof.
  destruct (castling_only_if_unmoved (E := Scripted.engine)
              Examples.castle_pieces Examples.castle_board) as [Honly Hexact].
  - vm_compute. reflexivity.
  - split.
    + apply (Honly _ _ BB_H1); [in_list | vm_compute; reflexivity].
    + apply Hexact; vm_compute; reflexivity.
Defined.

(** C5 fails as stated: the record [b_rook1] is missing, the black king
    has not moved, and no position is built. *)
Lemma missing_rook_not_built :
  moved_of Examples.no_rook_pieces (str "b_rook1") = None
  /\ reconstruct_board (E := Scripted.engine) Examples.no_rook_pieces = inl KeyError.
Proof. split; [vm_compute; reflexivity | vm_compute; reflexivity]. Qed.

Lemma missing_record_key_error_witness :
  (records_present Examples.moved_king_pieces = false
   /\ reconstruct_board (E := Scripted.engine) Examples.moved_king_pieces = inl KeyError)
  \/ (records_present Examples.moved_king_pieces = true
      /\ exists b, reconstruct_board (E := Scripted.engine) Examples.moved_king_pieces = inr b
           /\ forall king rook bb, (king, rook, bb) ∈ castling_table ->
                moved_of Examples.moved_king_pieces king = Some true ->
                grants b bb = false).
Proof.
  apply (missing_record_key_error (E := Scripted.engine) Examples.moved_king_pieces
           (set_turn (set_castling_rights Examples.moved_king_board 0) WHITE)).
  vm_compute. reflexivity.
Defined.

(** C6 fails as stated: the king and the queen are both on e1 and not
    captured, and a position is built, with the queen on e1. *)
Lemma duplicate_occupant_built :
  landing (Scripted.record "w_king" "5_1" false true) = inr (Some (4, mkPiece KING WHITE))
  /\ landing (Scripted.record "b_queen" "5_1" false true) = inr (Some (4, mkPiece QUEEN BLACK))
  /\ reconstruct_board (E := Scripted.engine) Examples.duplicate_pieces
     = inr Examples.duplicate_board
  /\ piece_at Examples.duplicate_board 4 = Some (mkPiece QUEEN BLACK).
Proof.
  split; [vm_compute; reflexivity|].
  split; [vm_compute; reflexivity|].
  split; [vm_compute; reflexivity|].
  vm_compute; reflexivity.
Qed.

Lemma last_record_occupies_witness :
  exists b, reconstruct_board (E := Scripted.engine) Examples.duplicate_pieces = inr b
         /\ piece_at b 4 = Some (mkPiece QUEEN BLACK).
Proof.
  apply (last_record_occupies (E := Scripted.engine)
           [(str "w_king", Scripted.record "w_king" "5_1" false true)]
           [(str "b_king", Scripted.record "b_king" "5_8" false true)]
           (str "b_queen") (Scripted.record "b_queen" "5_1" false true)).
  - intros k r' Hin.
    repeat (apply elem_of_cons in Hin as [[= -> ->]|Hin]);
      [ | | | apply elem_of_nil in Hin; contradiction ];
      eexists; vm_compute; reflexivity.
  - vm_compute. reflexivity.
  - vm_compute. reflexivity.
  - intros k r' p' Hin.
    apply elem_of_cons in Hin as [[= -> ->]|Hin];
      [ | apply elem_of_nil in Hin; contradiction ].
    vm_compute. discriminate.
Defined.

Lemma castling_rights_from_moved_only_witness :
  castling_rights Examples.captured_rook_board = castling_rights Examples.castle_board
  /\ grants Examples.captured_rook_board BB_H1 = true.
Proof.
  destruct (castling_rights_from_moved_only (E := Scripted.engine)
              Examples.captured_rook_pieces Examples.castle_pieces
              Examples.captured_rook_board Examples.castle_board) as [Heq Hcap].
  - vm_compute. reflexivity.
  - vm_compute. reflexivity.
  - intros key Hin. unfold castling_keys in Hin.
    repeat (apply elem_of_cons in Hin as [->|Hin]);
      [ | | | | | | apply elem_of_nil in Hin; contradiction ];
      vm_compute; reflexivity.
  - split; [exact Heq|].
    apply (Hcap (str "w_king") (str "w_rook2") BB_H1
             (Scripted.record "w_rook" "8_1" true false));
      [in_list | vm_compute; reflexivity ..].
Defined.

(** ** Evaluation *)

Section Evaluation.

Context {ES : Type} {E : RulesEngine ES}.

Local Abbreviation board := (Board ES).

(** The loop of [evaluate_board] adds Black's values and subtracts
    White's, square after square. *)
Lemma evaluate_squares (b : board) (squares : list Z) (evaluation : Z) :
  fold_left (evaluate_square b) squares evaluation =
  evaluation + foldr Z.add 0 (List.map (side_value BLACK b) squares)
             - foldr Z.add 0 (List.map (side_value WHITE b) squares).
Proof.
  revert evaluation. induction squares as [|sq squares IH]; intros evaluation; simpl.
  - lia.
  - rewrite IH. unfold evaluate_square, side_value.
    destruct (piece_at b sq) as [[pt [|]]|]; simpl; lia.
Qed.

(** What [evaluate_board] returns on a checkmate. *)
Lemma evaluate_board_checkmate (b : board) :
  is_checkmate b = true ->
  evaluate_board b = if turn b then -9999 else 9999.
Proof. unfold evaluate_board. now intros ->. Qed.

(** C8. On a position that is not checkmate, [evaluate_board] returns the
    material of Black minus the material of White, counted on the 64
    squares with pawn 1, knight 3, bishop 3, rook 5, queen 9, king 0.  The
    position may be over: a stalemate gets its material like any other
    position. *)
Theorem evaluate_board_material (b : board) :
  is_checkmate b = false ->
  evaluate_board b = material b
  /\ (values PAWN, values KNIGHT, values BISHOP, values ROOK, values QUEEN, values KING)
     = (1, 3, 3, 5, 9, 0).
Proof.
  intros Hmate. split; [|reflexivity].
  unfold evaluate_board, material, material_of. rewrite Hmate.
  rewrite evaluate_squares. lia.
Qed.

End Evaluation.

Lemma evaluate_board_material_witness :
  is_game_over (RulesEngine := Scripted.engine) Scripted.stalemate = true
  /\ evaluate_board (E := Scripted.engine) Scripted.stalemate
     = material Scripted.stalemate
  /\ (values PAWN, values KNIGHT, values BISHOP, values ROOK, values QUEEN, values KING)
     = (1, 3, 3, 5, 9, 0).
Proof.
  split; [vm_compute; reflexivity|].
  apply (evaluate_board_material (E := Scripted.engine) Scripted.stalemate).
  vm_compute. reflexivity.
Defined.

(** C1 on the code.  White is to move and is mated (king h1 against king
    g3 and queen g2): [evaluate_board] returns -9999, the score that is
    worst for Black, who delivered the mate and whom the search maximizes
    for; on the position where Black is to move and mated it returns
    9999. *)
Theorem evaluate_board_white_mated :
  is_checkmate (RulesEngine := Scripted.engine) Scripted.mate = true
  /\ turn Scripted.mate = WHITE
  /\ evaluate_board (E := Scripted.engine) Scripted.mate = -9999
  /\ (forall (ES : Type) (E : RulesEngine ES) (b : Board ES),
        is_checkmate b = true ->
        evaluate_board b = if turn b then -9999 else 9999).
Proof.
  split; [vm_compute; reflexivity|].
  split; [vm_compute; reflexivity|].
  split; [vm_compute; reflexivity|].
  intros ES E b. apply evaluate_board_checkmate.
Qed.

(** ** Scores *)

Lemma sltb_true (a b : score) :
  sltb a b = true <->
  tier a < tier b \/ (tier a = tier b /\ finite_part a < finite_part b).
Proof.
  destruct a as [| x |], b as [| y |]; simpl; rewrite ?Z.ltb_lt;
    intuition (try discriminate; try lia).
Qed.

Lemma sltb_false (a b : score) :
  sltb a b = false <->
  ~ (tier a < tier b \/ (tier a = tier b /\ finite_part a < finite_part b)).
Proof. rewrite <- sltb_true. destruct (sltb a b); intuition congruence. Qed.

Lemma score_eq (a b : score) :
  a = b <-> tier a = tier b /\ finite_part a = finite_part b.
Proof.
  destruct a as [| x |], b as [| y |]; simpl;
    intuition (try discriminate; try lia; try congruence).
Qed.

(** Goals about the order of scores, sent to [lia] through [tier] and
    [finite_part]. *)
Ltac score_lia :=
  unfold within, sleb, smax, smin in *;
  repeat match goal with
         | |- context [if sltb ?a ?b then _ else _] => destruct (sltb a b) eqn:?
         | H : context [if sltb ?a ?b then _ else _] |- _ => destruct (sltb a b) eqn:?
         end;
  rewrite ?negb_true_iff, ?negb_false_iff in *;
  rewrite ?sltb_true, ?sltb_false, ?score_eq in *;
  lia.

Lemma smax_NegInf (a : score) : smax a NegInf = a.
Proof. now destruct a. Qed.

Lemma smin_PosInf (a : score) : smin a PosInf = a.
Proof. now destruct a. Qed.

Lemma within_refl (alpha beta v : score) : within alpha beta v v.
Proof. score_lia. Qed.

(** With the full window the search result is the value. *)
Lemma within_full (v e : score) : within NegInf PosInf v e -> v = e.
Proof. destruct v, e; unfold within; simpl; intuition congruence. Qed.

Lemma foldl_smax_ge (l : list score) (x : score) : sleb x (foldl smax x l) = true.
Proof.
  revert x. induction l as [|y l IH]; intros x; simpl.
  - score_lia.
  - specialize (IH (smax x y)). score_lia.
Qed.

Lemma foldl_smin_le (l : list score) (x : score) : sleb (foldl smin x l) x = true.
Proof.
  revert x. induction l as [|y l IH]; intros x; simpl.
  - score_lia.
  - specialize (IH (smin x y)). score_lia.
Qed.

(** One iteration of the maximizing loop.  [M] is [max_eval], [X] the
    greatest true value of the children seen so far, [v] and [e] the true
    value and the search result of the next child. *)
Lemma max_step (alpha0 beta M X v e : score) :
  sltb (smax alpha0 M) beta = true ->
  (sleb M alpha0 = true -> sleb X M = true) ->
  (sltb alpha0 M = true -> X = M) ->
  within (smax alpha0 M) beta v e ->
  (sleb beta (smax (smax alpha0 M) e) = true ->
     forall V, sleb (smax X v) V = true -> within alpha0 beta V (smax M e))
  /\ (sleb beta (smax (smax alpha0 M) e) = false ->
      smax (smax alpha0 M) e = smax alpha0 (smax M e)
      /\ sltb (smax alpha0 (smax M e)) beta = true
      /\ (sleb (smax M e) alpha0 = true -> sleb (smax X v) (smax M e) = true)
      /\ (sltb alpha0 (smax M e) = true -> smax X v = smax M e)).
Proof.
  intros H1 H2 H3 H4; split; [intros H5 V H6 | intros H5]; score_lia.
Qed.

(** One iteration of the minimizing loop. *)
Lemma min_step (alpha beta0 M X v e : score) :
  sltb alpha (smin beta0 M) = true ->
  (sleb beta0 M = true -> sleb M X = true) ->
  (sltb M beta0 = true -> X = M) ->
  within alpha (smin beta0 M) v e ->
  (sleb (smin (smin beta0 M) e) alpha = true ->
     forall V, sleb V (smin X v) = true -> within alpha beta0 V (smin M e))
  /\ (sleb (smin (smin beta0 M) e) alpha = false ->
      smin (smin beta0 M) e = smin beta0 (smin M e)
      /\ sltb alpha (smin beta0 (smin M e)) = true
      /\ (sleb beta0 (smin M e) = true -> sleb (smin M e) (smin X v) = true)
      /\ (sltb (smin M e) beta0 = true -> smin X v = smin M e)).
Proof.
  intros H1 H2 H3 H4; split; [intros H5 V H6 | intros H5]; score_lia.
Qed.

(** ** Search *)

Section SearchProperties.

Context {ES : Type} {E : RulesEngine ES}.

Local Abbreviation board := (Board ES).

(** *** The bounds of the pruning search *)

Lemma ab_max_within (rec : score -> score -> Move -> score) (vals : Move -> score)
    (alpha0 beta : score) (moves : list Move) :
  (forall m alpha, m ∈ moves -> sltb alpha beta = true ->
     within alpha beta (vals m) (rec alpha beta m)) ->
  forall M X,
    sltb (smax alpha0 M) beta = true ->
    (sleb M alpha0 = true -> sleb X M = true) ->
    (sltb alpha0 M = true -> X = M) ->
    within alpha0 beta (foldl smax X (List.map vals moves))
           (ab_max rec moves (smax alpha0 M) beta M).
Proof.
  induction moves as [|m moves IH]; intros Hrec M X H1 H2 H3; simpl.
  - clear Hrec. score_lia.
  - assert (Hm : within (smax alpha0 M) beta (vals m) (rec (smax alpha0 M) beta m)).
    { apply Hrec; [left|exact H1]. }
    destruct (max_step alpha0 beta M X _ _ H1 H2 H3 Hm) as [Hcut Hgo].
    destruct (sleb beta (smax (smax alpha0 M) (rec (smax alpha0 M) beta m))) eqn:Hc.
    + apply Hcut; [reflexivity|]. apply foldl_smax_ge.
    + destruct (Hgo eq_refl) as (Ha & Hb & Hd & He). rewrite Ha.
      apply IH; auto. intros m' a Hin. apply Hrec. now right.
Qed.

Lemma ab_min_within (rec : score -> score -> Move -> score) (vals : Move -> score)
    (alpha beta0 : score) (moves : list Move) :
  (forall m beta, m ∈ moves -> sltb alpha beta = true ->
     within alpha beta (vals m) (rec alpha beta m)) ->
  forall M X,
    sltb alpha (smin beta0 M) = true ->
    (sleb beta0 M = true -> sleb M X = true) ->
    (sltb M beta0 = true -> X = M) ->
    within alpha beta0 (foldl smin X (List.map vals moves))
           (ab_min rec moves alpha (smin beta0 M) M).
Proof.
  induction moves as [|m moves IH]; intros Hrec M X H1 H2 H3; simpl.
  - clear Hrec. score_lia.
  - assert (Hm : within alpha (smin beta0 M) (vals m) (rec alpha (smin beta0 M) m)).
    { apply Hrec; [left|exact H1]. }
    destruct (min_step alpha beta0 M X _ _ H1 H2 H3 Hm) as [Hcut Hgo].
    destruct (sleb (smin (smin beta0 M) (rec alpha (smin beta0 M) m)) alpha) eqn:Hc.
    + apply Hcut; [reflexivity|]. apply foldl_smin_le.
    + destruct (Hgo eq_refl) as (Ha & Hb & Hd & He). rewrite Ha.
      apply IH; auto. intros m' a Hin. apply Hrec. now right.
Qed.

(** The pruning search keeps the promise of its window at every node. *)
Lemma alphabeta_within (depth : nat) :
  forall (maximizing : bool) (b : board) (alpha beta : score),
    sltb alpha beta = true ->
    within alpha beta (full_minimax depth maximizing b)
           (alphabeta depth alpha beta maximizing b).
Proof.
  induction depth as [|depth IH]; intros maximizing b alpha beta Hab; simpl.
  - apply within_refl.
  - destruct (is_game_over b); [apply within_refl|].
    destruct maximizing.
    + rewrite <- (smax_NegInf alpha) at 2.
      apply (ab_max_within _ (fun m => full_minimax depth false (child b m))).
      * intros m a _ Ha. now apply IH.
      * now rewrite smax_NegInf.
      * intros _. reflexivity.
      * intros _. reflexivity.
    + rewrite <- (smin_PosInf beta) at 2.
      apply (ab_min_within _ (fun m => full_minimax depth true (child b m))).
      * intros m a _ Ha. now apply IH.
      * now rewrite smin_PosInf.
      * intros _. reflexivity.
      * intros _. reflexivity.
Qed.

(** *** The search on an engine that applies and undoes its moves *)

Lemma max_loop_run (rec : score -> score -> M ES score)
    (prec : score -> score -> Move -> score) (b : board) (moves : list Move) :
  (forall m, m ∈ moves -> exists b', push m b = (inr tt, b') /\ pop b' = (inr tt, b)) ->
  (forall m alpha beta, m ∈ moves ->
     rec alpha beta (child b m) = (inr (prec alpha beta m), child b m)) ->
  forall alpha beta max_eval,
    max_loop rec moves alpha beta max_eval b
    = (inr (ab_max prec moves alpha beta max_eval), b).
Proof.
  induction moves as [|m moves IH]; intros Heng Hrec alpha beta max_eval; simpl.
  - reflexivity.
  - destruct (Heng m) as (b' & Hpush & Hpop); [left|].
    assert (Hm := Hrec m alpha beta ltac:(left)).
    unfold child in Hm. unfold bind. rewrite Hpush in *. simpl in Hm.
    rewrite Hm, Hpop.
    destruct (sleb beta (smax alpha (prec alpha beta m))); [reflexivity|].
    apply IH.
    + intros m' Hin. apply Heng. now right.
    + intros m' a b0 Hin. apply Hrec. now right.
Qed.

Lemma min_loop_run (rec : score -> score -> M ES score)
    (prec : score -> score -> Move -> score) (b : board) (moves : list Move) :
  (forall m, m ∈ moves -> exists b', push m b = (inr tt, b') /\ pop b' = (inr tt, b)) ->
  (forall m alpha beta, m ∈ moves ->
     rec alpha beta (child b m) = (inr (prec alpha beta m), child b m)) ->
  forall alpha beta min_eval,
    min_loop rec moves alpha beta min_eval b
    = (inr (ab_min prec moves alpha beta min_eval), b).
Proof.
  induction moves as [|m moves IH]; intros Heng Hrec alpha beta min_eval; simpl.
  - reflexivity.
  - destruct (Heng m) as (b' & Hpush & Hpop); [left|].
    assert (Hm := Hrec m alpha beta ltac:(left)).
    unfold child in Hm. unfold bind. rewrite Hpush in *. simpl in Hm.
    rewrite Hm, Hpop.
    destruct (sleb (smin beta (prec alpha beta m)) alpha); [reflexivity|].
    apply IH.
    + intros m' Hin. apply Heng. now right.
    + intros m' a b0 Hin. apply Hrec. now right.
Qed.

(** On such an engine [minimax] returns, with the value of [alphabeta],
    and leaves the board as it found it. *)
Lemma minimax_run (Hlaw : apply_undo_law) (depth : nat) :
  forall (alpha beta : score) (maximizing : bool) (b : board),
    minimax depth alpha beta maximizing b
    = (inr (alphabeta depth alpha beta maximizing b), b).
Proof.
  induction depth as [|depth IH]; intros alpha beta maximizing b; simpl.
  - reflexivity.
  - destruct (is_game_over b); [reflexivity|].
    destruct maximizing.
    + apply (max_loop_run _ (fun a b' m => alphabeta depth a b' false (child b m))).
      * intros m Hin. now apply Hlaw.
      * intros m a b' _. apply IH.
    + apply (min_loop_run _ (fun a b' m => alphabeta depth a b' true (child b m))).
      * intros m Hin. now apply Hlaw.
      * intros m a b' _. apply IH.
Qed.

Lemma minimax_full_window (Hlaw : apply_undo_law)
    (depth : nat) (maximizing : bool) (b : board) :
  minimax depth NegInf PosInf maximizing b
  = (inr (full_minimax depth maximizing b), b).
Proof.
  rewrite (minimax_run Hlaw). f_equal. f_equal. symmetry.
  apply within_full. now apply alphabeta_within.
Qed.

(** C2. On an engine whose listed moves can be applied and undone, the
    pruning search started with the window from [-inf] to [+inf] returns,
    for every position, depth and role, the value of the minimax over the
    whole tree with the same evaluation at the leaves (and gives the board
    back). *)
Theorem alpha_beta_equals_full_minimax (Hlaw : apply_undo_law)
    (depth : nat) (maximizing : bool) (b : board) :
  minimax depth NegInf PosInf maximizing b
  = (inr (full_minimax depth maximizing b), b).
Proof. now apply minimax_full_window. Qed.

(** *** Apply and undo *)

Lemma max_loop_restores (Hundo : undo_law) (rec : score -> score -> M ES score)
    (moves : list Move) :
  (forall alpha beta b v b', rec alpha beta b = (inr v, b') -> b' = b) ->
  forall alpha beta max_eval b v b',
    max_loop rec moves alpha beta max_eval b = (inr v, b') -> b' = b.
Proof.
  intros Hrec.
  induction moves as [|m moves IH]; intros alpha beta max_eval b v b'; simpl.
  - now intros [= _ <-].
  - unfold bind.
    destruct (push m b) as [[e|[]] b1] eqn:Hpush; [discriminate|].
    destruct (rec alpha beta b1) as [[e|ev] b2] eqn:Hr; [discriminate|].
    apply Hrec in Hr as ->.
    destruct (pop b1) as [[e|[]] b3] eqn:Hpop; [discriminate|].
    rewrite (Hundo _ _ _ _ Hpush Hpop).
    destruct (sleb beta (smax alpha ev)); [now intros [= _ <-]|apply IH].
Qed.

Lemma min_loop_restores (Hundo : undo_law) (rec : score -> score -> M ES score)
    (moves : list Move) :
  (forall alpha beta b v b', rec alpha beta b = (inr v, b') -> b' = b) ->
  forall alpha beta min_eval b v b',
    min_loop rec moves alpha beta min_eval b = (inr v, b') -> b' = b.
Proof.
  intros Hrec.
  induction moves as [|m moves IH]; intros alpha beta min_eval b v b'; simpl.
  - now intros [= _ <-].
  - unfold bind.
    destruct (push m b) as [[e|[]] b1] eqn:Hpush; [discriminate|].
    destruct (rec alpha beta b1) as [[e|ev] b2] eqn:Hr; [discriminate|].
    apply Hrec in Hr as ->.
    destruct (pop b1) as [[e|[]] b3] eqn:Hpop; [discriminate|].
    rewrite (Hundo _ _ _ _ Hpush Hpop).
    destruct (sleb (smin beta ev) alpha); [now intros [= _ <-]|apply IH].
Qed.

Lemma minimax_restores (Hundo : undo_law) (depth : nat) :
  forall alpha beta maximizing (b : board) v b',
    minimax depth alpha beta maximizing b = (inr v, b') -> b' = b.
Proof.
  induction depth as [|depth IH]; intros alpha beta maximizing b v b'; simpl.
  - now intros [= _ <-].
  - destruct (is_game_over b); [now intros [= _ <-]|].
    destruct maximizing.
    + apply (max_loop_restores Hundo). intros a b0 b1 v1 b2. apply IH.
    + apply (min_loop_restores Hundo). intros a b0 b1 v1 b2. apply IH.
Qed.

Lemma root_loop_restores (Hundo : undo_law) (moves : list Move) :
  forall best_move best_value (b : board) r b',
    root_loop moves best_move best_value b = (inr r, b') -> b' = b.
Proof.
  induction moves as [|m moves IH]; intros best_move best_value b r b';
    cbn [root_loop].
  - now intros [= _ <-].
  - unfold bind.
    destruct (push m b) as [[e|[]] b1] eqn:Hpush; [discriminate|].
    destruct (minimax 2 NegInf PosInf false b1) as [[e|val] b2] eqn:Hr; [discriminate|].
    apply (minimax_restores Hundo) in Hr as ->.
    destruct (pop b1) as [[e|[]] b3] eqn:Hpop; [discriminate|].
    rewrite (Hundo _ _ _ _ Hpush Hpop).
    destruct (sltb best_value val); apply IH.
Qed.

(** When the call on the child raises, the loops undo nothing: the
    exception leaves with the board of the child. *)
Lemma loops_raise (rec : score -> score -> M ES score) (m : Move) (moves : list Move)
    (alpha beta eval : score) (b b1 b2 : board) (e : exn) :
  push m b = (inr tt, b1) ->
  rec alpha beta b1 = (inl e, b2) ->
  max_loop rec (m :: moves) alpha beta eval b = (inl e, b2)
  /\ min_loop rec (m :: moves) alpha beta eval b = (inl e, b2).
Proof. intros Hpush Hrec. simpl. unfold bind. now rewrite Hpush, Hrec. Qed.

(** *** The log of applies and undos *)

Lemma logging_log (ev : event) (op : M ES unit) (b b' : Board (ES * list event)) :
  logging ev op b = (inr tt, b') -> log b' = log b ++ [ev].
Proof.
  unfold logging. destruct (op (forget b)) as [[e|[]] b1]; [discriminate|].
  now intros [= <-].
Qed.

Lemma bracketed_step (m : Move) (l0 l1 l2 l3 l4 : list event) :
  l1 = l0 ++ [Applied m] ->
  (exists w, l2 = l1 ++ w /\ bracketed w) ->
  l3 = l2 ++ [Undone] ->
  (exists w, l4 = l3 ++ w /\ bracketed w) ->
  exists w, l4 = l0 ++ w /\ bracketed w.
Proof.
  intros -> (w1 & -> & Hw1) -> (w2 & -> & Hw2).
  exists (Applied m :: w1 ++ Undone :: w2). split.
  - rewrite <- !app_assoc. reflexivity.
  - now constructor.
Qed.

Lemma traced_max_loop (rec : score -> score -> M (ES * list event) score)
    (moves : list Move) :
  (forall alpha beta b v b', rec alpha beta b = (inr v, b') ->
     exists w, log b' = log b ++ w /\ bracketed w) ->
  forall alpha beta max_eval b v b',
    max_loop (E := traced E) rec moves alpha beta max_eval b = (inr v, b') ->
    exists w, log b' = log b ++ w /\ bracketed w.
Proof.
  intros Hrec.
  induction moves as [|m moves IH]; intros alpha beta max_eval b v b'; simpl.
  - intros [= _ <-]. exists []. rewrite app_nil_r. split; [reflexivity|constructor].
  - unfold bind.
    destruct (logging (Applied m) (push m) b) as [[e|[]] b1] eqn:Hpush; [discriminate|].
    destruct (rec alpha beta b1) as [[e|ev] b2] eqn:Hr; [discriminate|].
    destruct (logging Undone pop b2) as [[e|[]] b3] eqn:Hpop; [discriminate|].
    intros Hrest.
    apply (bracketed_step m (log b) (log b1) (log b2) (log b3) (log b')).
    + now apply logging_log in Hpush.
    + now apply Hrec in Hr.
    + now apply logging_log in Hpop.
    + destruct (sleb beta (smax alpha ev)).
      * injection Hrest as _ <-. exists []. rewrite app_nil_r.
        split; [reflexivity|constructor].
      * now apply IH in Hrest.
Qed.

Lemma traced_min_loop (rec : score -> score -> M (ES * list event) score)
    (moves : list Move) :
  (forall alpha beta b v b', rec alpha beta b = (inr v, b') ->
     exists w, log b' = log b ++ w /\ bracketed w) ->
  forall alpha beta min_eval b v b',
    min_loop (E := traced E) rec moves alpha beta min_eval b = (inr v, b') ->
    exists w, log b' = log b ++ w /\ bracketed w.
Proof.
  intros Hrec.
  induction moves as [|m moves IH]; intros alpha beta min_eval b v b'; simpl.
  - intros [= _ <-]. exists []. rewrite app_nil_r. split; [reflexivity|constructor].
  - unfold bind.
    destruct (logging (Applied m) (push m) b) as [[e|[]] b1] eqn:Hpush; [discriminate|].
    destruct (rec alpha beta b1) as [[e|ev] b2] eqn:Hr; [discriminate|].
    destruct (logging Undone pop b2) as [[e|[]] b3] eqn:Hpop; [discriminate|].
    intros Hrest.
    apply (bracketed_step m (log b) (log b1) (log b2) (log b3) (log b')).
    + now apply logging_log in Hpush.
    + now apply Hrec in Hr.
    + now apply logging_log in Hpop.
    + destruct (sleb (smin beta ev) alpha).
      * injection Hrest as _ <-. exists []. rewrite app_nil_r.
        split; [reflexivity|constructor].
      * now apply IH in Hrest.
Qed.

Lemma traced_minimax (depth : nat) :
  forall alpha beta maximizing b v b',
    minimax (E := traced E) depth alpha beta maximizing b = (inr v, b') ->
    exists w, log b' = log b ++ w /\ bracketed w.
Proof.
  induction depth as [|depth IH]; intros alpha beta maximizing b v b'; simpl.
  - intros [= _ <-]. exists []. rewrite app_nil_r. split; [reflexivity|constructor].
  - destruct (is_game_over (forget b)).
    { intros [= _ <-]. exists []. rewrite app_nil_r. split; [reflexivity|constructor]. }
    destruct maximizing.
    + apply traced_max_loop. intros a b0 b1 v1 b2. apply IH.
    + apply traced_min_loop. intros a b0 b1 v1 b2. apply IH.
Qed.

Lemma traced_root_loop (moves : list Move) :
  forall best_move best_value b r b',
    root_loop (E := traced E) moves best_move best_value b = (inr r, b') ->
    exists w, log b' = log b ++ w /\ bracketed w.
Proof.
  induction moves as [|m moves IH]; intros best_move best_value b r b';
    cbn [root_loop].
  - intros [= _ <-]. exists []. rewrite app_nil_r. split; [reflexivity|constructor].
  - unfold bind.
    destruct (push (RulesEngine := traced E) m b) as [[e|[]] b1] eqn:Hpush; [discriminate|].
    destruct (minimax (E := traced E) 2 NegInf PosInf false b1) as [[e|val] b2] eqn:Hr;
      [discriminate|].
    destruct (pop (RulesEngine := traced E) b2) as [[e|[]] b3] eqn:Hpop; [discriminate|].
    intros Hrest.
    apply (bracketed_step m (log b) (log b1) (log b2) (log b3) (log b')).
    + now apply logging_log in Hpush.
    + now apply traced_minimax in Hr.
    + now apply logging_log in Hpop.
    + destruct (sltb best_value val); now apply IH in Hrest.
Qed.

(** The engine with a log runs the search of the engine it wraps. *)
Lemma forget_with_log (b : board) (l : list event) : forget (with_log b l) = b.
Proof. now destruct b. Qed.

Lemma logging_same (ev : event) (op : M ES unit) (b : Board (ES * list event)) :
  op (forget b) = (fst (logging ev op b), forget (snd (logging ev op b))).
Proof.
  unfold logging. destruct (op (forget b)) as [[e|[]] b1]; simpl;
    now rewrite forget_with_log.
Qed.

Lemma traced_max_loop_same (rec : score -> score -> M ES score)
    (rec' : score -> score -> M (ES * list event) score) (moves : list Move) :
  (forall alpha beta b,
     rec alpha beta (forget b) = (fst (rec' alpha beta b), forget (snd (rec' alpha beta b)))) ->
  forall alpha beta max_eval b,
    max_loop rec moves alpha beta max_eval (forget b)
    = (fst (max_loop (E := traced E) rec' moves alpha beta max_eval b),
       forget (snd (max_loop (E := traced E) rec' moves alpha beta max_eval b))).
Proof.
  intros Hrec.
  induction moves as [|m moves IH]; intros alpha beta max_eval b; simpl.
  - reflexivity.
  - unfold bind. rewrite (logging_same (Applied m)).
    destruct (logging (Applied m) (push m) b) as [[e|[]] b1]; simpl; [reflexivity|].
    rewrite Hrec.
    destruct (rec' alpha beta b1) as [[e|ev] b2]; simpl; [reflexivity|].
    rewrite (logging_same Undone).
    destruct (logging Undone pop b2) as [[e|[]] b3]; simpl; [reflexivity|].
    destruct (sleb beta (smax alpha ev)); [reflexivity|apply IH].
Qed.

Lemma traced_min_loop_same (rec : score -> score -> M ES score)
    (rec' : score -> score -> M (ES * list event) score) (moves : list Move) :
  (forall alpha beta b,
     rec alpha beta (forget b) = (fst (rec' alpha beta b), forget (snd (rec' alpha beta b)))) ->
  forall alpha beta min_eval b,
    min_loop rec moves alpha beta min_eval (forget b)
    = (fst (min_loop (E := traced E) rec' moves alpha beta min_eval b),
       forget (snd (min_loop (E := traced E) rec' moves alpha beta min_eval b))).
Proof.
  intros Hrec.
  induction moves as [|m moves IH]; intros alpha beta min_eval b; simpl.
  - reflexivity.
  - unfold bind. rewrite (logging_same (Applied m)).
    destruct (logging (Applied m) (push m) b) as [[e|[]] b1]; simpl; [reflexivity|].
    rewrite Hrec.
    destruct (rec' alpha beta b1) as [[e|ev] b2]; simpl; [reflexivity|].
    rewrite (logging_same Undone).
    destruct (logging Undone pop b2) as [[e|[]] b3]; simpl; [reflexivity|].
    destruct (sleb (smin beta ev) alpha); [reflexivity|apply IH].
Qed.

Lemma traced_minimax_same (depth : nat) :
  forall alpha beta maximizing (b : Board (ES * list event)),
    minimax depth alpha beta maximizing (forget b)
    = (fst (minimax (E := traced E) depth alpha beta maximizing b),
       forget (snd (minimax (E := traced E) depth alpha beta maximizing b))).
Proof.
  induction depth as [|depth IH]; intros alpha beta maximizing b; simpl.
  - reflexivity.
  - destruct (is_game_over (forget b)); [reflexivity|].
    destruct maximizing.
    + apply traced_max_loop_same. intros a b0 b1. apply IH.
    + apply traced_min_loop_same. intros a b0 b1. apply IH.
Qed.

(** C7, as the code has it.  When [minimax] and the root loop return,
    every move they applied has been undone once, apply and undo nested
    like brackets (on any engine, as its log shows); and on an engine
    whose undo gives back the board of the matching apply, they leave the
    board as they found it.  When the search of a child raises, the move
    applied is not undone: the exception leaves the loop with the board
    the child left. *)
Theorem search_restores_board (Hundo : undo_law) :
  (forall depth alpha beta maximizing (b : board) v b',
     minimax depth alpha beta maximizing b = (inr v, b') -> b' = b)
  /\ (forall moves best_move best_value (b : board) r b',
        root_loop moves best_move best_value b = (inr r, b') -> b' = b)
  /\ (forall depth alpha beta maximizing b v b',
        minimax (E := traced E) depth alpha beta maximizing b = (inr v, b') ->
        exists w, log b' = log b ++ w /\ bracketed w)
  /\ (forall moves best_move best_value b r b',
        root_loop (E := traced E) moves best_move best_value b = (inr r, b') ->
        exists w, log b' = log b ++ w /\ bracketed w)
  /\ (forall m moves best_move best_value (b b1 b2 : board) e,
        push m b = (inr tt, b1) ->
        minimax 2 NegInf PosInf false b1 = (inl e, b2) ->
        root_loop (m :: moves) best_move best_value b = (inl e, b2))
  /\ (forall depth m moves alpha beta (b b1 b2 : board) e,
        is_game_over b = false -> legal_moves b = m :: moves ->
        push m b = (inr tt, b1) ->
        (minimax depth alpha beta false b1 = (inl e, b2) ->
         minimax (S depth) alpha beta true b = (inl e, b2))
        /\ (minimax depth alpha beta true b1 = (inl e, b2) ->
            minimax (S depth) alpha beta false b = (inl e, b2))).
Proof.
  split; [|split; [|split; [|split; [|split]]]].
  - intros depth. apply (minimax_restores Hundo).
  - intros moves. apply (root_loop_restores Hundo).
  - intros depth. apply traced_minimax.
  - intros moves. apply traced_root_loop.
  - intros m moves best_move best_value b b1 b2 e Hpush Hrec.
    cbn [root_loop]. unfold bind. now rewrite Hpush, Hrec.
  - intros depth m moves alpha beta b b1 b2 e Hover Hmoves Hpush.
    simpl. rewrite Hover, Hmoves. split; intros Hrec.
    + now apply (loops_raise (fun a b' => minimax depth a b' false) m moves
                   alpha beta NegInf b b1 b2 e Hpush).
    + now apply (loops_raise (fun a b' => minimax depth a b' true) m moves
                   alpha beta PosInf b b1 b2 e Hpush).
Qed.


(** *** The root *)

Lemma foldl_smax_finite (l : list score) :
  (forall v, v ∈ l -> exists z, v = Fin z) ->
  forall x, (exists z, x = Fin z) \/ (x = NegInf /\ l <> []) ->
  exists z, foldl smax x l = Fin z.
Proof.
  induction l as [|v l IH]; intros Hl x Hx; simpl.
  - destruct Hx as [Hx|[_ Hx]]; [exact Hx|contradiction].
  - apply IH; [intros; apply Hl; now right|]. left.
    destruct (Hl v) as [z ->]; [left|].
    destruct Hx as [[z' ->]|[-> _]]; unfold smax; simpl; [|eauto].
    destruct (z' <? z); eauto.
Qed.

Lemma foldl_smin_finite (l : list score) :
  (forall v, v ∈ l -> exists z, v = Fin z) ->
  forall x, (exists z, x = Fin z) \/ (x = PosInf /\ l <> []) ->
  exists z, foldl smin x l = Fin z.
Proof.
  induction l as [|v l IH]; intros Hl x Hx; simpl.
  - destruct Hx as [Hx|[_ Hx]]; [exact Hx|contradiction].
  - apply IH; [intros; apply Hl; now right|]. left.
    destruct (Hl v) as [z ->]; [left|].
    destruct Hx as [[z' ->]|[-> _]]; unfold smin; simpl; [|eauto].
    destruct (z <? z'); eauto.
Qed.

(** When a position without moves is over, every value is an integer. *)
Lemma full_minimax_finite (Hno : no_move_law) (depth : nat) :
  forall (maximizing : bool) (b : board),
    exists z, full_minimax depth maximizing b = Fin z.
Proof.
  induction depth as [|depth IH]; intros maximizing b; simpl.
  - eauto.
  - destruct (is_game_over b) eqn:Hover; [eauto|].
    assert (Hmoves : legal_moves b <> []).
    { intros Hnil. apply Hno in Hnil. congruence. }
    assert (Hmap : forall mx, List.map (fun m => full_minimax depth mx (child b m))
                                (legal_moves b) <> []).
    { intros mx. destruct (legal_moves b); [contradiction|discriminate]. }
    destruct maximizing.
    + apply foldl_smax_finite; [|right; auto].
      intros v Hv. apply list_elem_of_In, in_map_iff in Hv as (m & <- & _). apply IH.
    + apply foldl_smin_finite; [|right; auto].
      intros v Hv. apply list_elem_of_In, in_map_iff in Hv as (m & <- & _). apply IH.
Qed.

Lemma root_loop_run (Hlaw : apply_undo_law) (b : board) (moves : list Move) :
  (forall m, m ∈ moves -> m ∈ legal_moves b) ->
  forall best_move best_value,
    root_loop moves best_move best_value b
    = (inr (root_pick (fun m => full_minimax 2 false (child b m)) moves
              best_move best_value), b).
Proof.
  induction moves as [|m moves IH]; intros Hin best_move best_value;
    cbn [root_loop root_pick].
  - reflexivity.
  - destruct (Hlaw b m) as (b' & Hpush & Hpop); [apply Hin; left|].
    unfold bind. unfold child at 1 2. rewrite Hpush. cbn [snd].
    rewrite (minimax_full_window Hlaw), Hpop.
    destruct (sltb best_value (full_minimax 2 false b')) eqn:Hlt.
    + replace (full_minimax 2 false b') with (full_minimax 2 false (child b m))
        by (unfold child; now rewrite Hpush).
      apply IH. intros; apply Hin; now right.
    + apply IH. intros; apply Hin; now right.
Qed.

Lemma root_pick_in (vals : Move -> score) (moves : list Move) :
  forall best_move best_value,
    root_pick vals moves best_move best_value = best_move
    \/ exists m, m ∈ moves /\ root_pick vals moves best_move best_value = Some m.
Proof.
  induction moves as [|m moves IH]; intros best_move best_value; simpl.
  - now left.
  - destruct (sltb best_value (vals m)).
    + right. destruct (IH (Some m) (vals m)) as [->|(m' & Hin & ->)].
      * exists m. split; [left|reflexivity].
      * exists m'. split; [now right|reflexivity].
    + destruct (IH best_move best_value) as [->|(m' & Hin & ->)]; [now left|].
      right. exists m'. split; [now right|reflexivity].
Qed.

(** From [None] and [-inf], integer values make the loop choose a move. *)
Lemma root_pick_some (vals : Move -> score) (m : Move) (moves : list Move) :
  (exists z, vals m = Fin z) ->
  exists m', m' ∈ m :: moves
    /\ root_pick vals (m :: moves) None NegInf = Some m'
    /\ (moves = [] -> m' = m).
Proof.
  intros [z Hz]. simpl. rewrite Hz. simpl.
  destruct (root_pick_in vals moves (Some m) (Fin z)) as [->|(m' & Hin & ->)].
  - exists m. split; [left|auto].
  - exists m'. split; [now right|]. split; [reflexivity|].
    intros ->. now apply elem_of_nil in Hin.
Qed.

Lemma reply_squares (m : Move) :
  0 <= from_square m < 64 -> 0 <= to_square m < 64 ->
  reply m = Reply (square_pair_name (from_square m)) (square_pair_name (to_square m)).
Proof.
  intros Hf Ht. unfold reply.
  pose proof (square_name_pair _ Hf) as H1.
  pose proof (square_name_pair _ Ht) as H2.
  destruct (square_name (from_square m)) as [|n1]; [discriminate|].
  destruct (square_name (to_square m)) as [|n2]; [discriminate|].
  cbn [rbind] in *. rewrite H1. cbn [rbind]. rewrite H2. reflexivity.
Qed.

Lemma Move_bool_legal (m : Move) : from_square m <> to_square m -> Move_bool m = true.
Proof.
  intros Hne. unfold Move_bool.
  destruct (Z.eqb_spec (from_square m) 0) as [H0|]; [|reflexivity].
  destruct (Z.eqb_spec (to_square m) 0) as [H1|]; [|reflexivity].
  congruence.
Qed.

(** The answer on a position with a legal move. *)
Lemma answer_some (Hlaw : apply_undo_law) (Hno : no_move_law) (Hsq : move_squares_law)
    (b : board) (m : Move) (moves : list Move) :
  legal_moves b = m :: moves ->
  exists m', m' ∈ legal_moves b
    /\ answer b = Reply (square_pair_name (from_square m'))
                        (square_pair_name (to_square m'))
    /\ (moves = [] -> m' = m).
Proof.
  intros Hmoves. unfold answer.
  rewrite (root_loop_run Hlaw) by auto. rewrite Hmoves.
  destruct (root_pick_some (fun m => full_minimax 2 false (child b m)) m moves)
    as (m' & Hin & -> & Hone); [apply (full_minimax_finite Hno)|].
  exists m'. rewrite <- Hmoves in Hin.
  destruct (Hsq b m' Hin) as (Hf & Ht & Hne).
  rewrite (Move_bool_legal _ Hne), (reply_squares _ Hf Ht).
  rewrite Hmoves in Hin. auto.
Qed.

(** C3. On an engine that keeps its contract (listed moves can be applied
    and undone, a position without moves is over, a move joins two
    different squares of the board), the answer is a move if and only if
    the position has a legal move: without legal move it is the error
    "Game Over or No Move"; with exactly one legal move it is that move,
    whatever its score; and a move that is returned is a legal one. *)
Theorem answer_move_iff_legal_move (Hlaw : apply_undo_law) (Hno : no_move_law)
    (Hsq : move_squares_law) (b : board) :
  (legal_moves b = [] -> answer b = GameOverOrNoMove)
  /\ (forall m, legal_moves b = [m] ->
        answer b = Reply (square_pair_name (from_square m))
                         (square_pair_name (to_square m)))
  /\ ((exists src dst, answer b = Reply src dst) <-> legal_moves b <> [])
  /\ (legal_moves b <> [] ->
      exists m, m ∈ legal_moves b
        /\ answer b = Reply (square_pair_name (from_square m))
                            (square_pair_name (to_square m))).
Proof.
  assert (Hnone : legal_moves b = [] -> answer b = GameOverOrNoMove).
  { intros Hnil. unfold answer. now rewrite Hnil. }
  assert (Hsome : legal_moves b <> [] ->
                  exists m, m ∈ legal_moves b
                    /\ answer b = Reply (square_pair_name (from_square m))
                                        (square_pair_name (to_square m))).
  { intros Hne. destruct (legal_moves b) as [|m moves] eqn:Hmoves; [contradiction|].
    destruct (answer_some Hlaw Hno Hsq b m moves Hmoves) as (m' & Hin & Ha & _).
    rewrite Hmoves in Hin. eauto. }
  split; [exact Hnone|]. split; [|split; [|exact Hsome]].
  - intros m Hmoves.
    destruct (answer_some Hlaw Hno Hsq b m [] Hmoves) as (m' & _ & Ha & Hone).
    now rewrite <- (Hone eq_refl).
  - split.
    + intros (src & dst & Ha) Hnil. rewrite (Hnone Hnil) in Ha. discriminate.
    + intros Hne. destruct (Hsome Hne) as (m & _ & Ha). eauto.
Qed.
End SearchProperties.

(** *** The scripted engine keeps the contract *)

Lemma scripted_apply_undo : apply_undo_law (E := Scripted.engine).
Proof.
  intros b m _. eexists; split; [reflexivity|]. now destruct b.
Qed.

Lemma scripted_undo : undo_law (E := Scripted.engine).
Proof.
  intros m b b' b'' [= <-]. simpl. intros [= <-]. now destruct b.
Qed.

Lemma faulty_undo : undo_law (E := Scripted.faulty_engine).
Proof.
  intros m b b' b''. simpl. unfold Scripted.faulty_push.
  destruct (bool_decide (length (engine_state b) = 1%nat)); [discriminate|].
  intros [= <-]. simpl. intros [= <-]. now destruct b.
Qed.

Lemma scripted_no_move : no_move_law (E := Scripted.engine).
Proof. intros b Hnil. simpl in *. now apply bool_decide_eq_true. Qed.

Lemma scripted_move_squares : move_squares_law (E := Scripted.engine).
Proof.
  intros b m Hin. simpl in Hin. unfold Scripted.moves_of in Hin.
  destruct (Scripted.mated b || Scripted.stalemated b); [now apply elem_of_nil in Hin|].
  destruct (length (engine_state b)) as [|[|[|n]]]; simpl in Hin;
    repeat (apply elem_of_cons in Hin as [->|Hin]);
    try (now apply elem_of_nil in Hin);
    simpl; lia.
Qed.

Lemma alpha_beta_equals_full_minimax_witness :
  minimax (E := Scripted.engine) 3 NegInf PosInf true Scripted.start
  = (inr (full_minimax (E := Scripted.engine) 3 true Scripted.start), Scripted.start).
Proof.
  apply (alpha_beta_equals_full_minimax (E := Scripted.engine) scripted_apply_undo).
Defined.

Lemma answer_move_iff_legal_move_witness :
  answer (E := Scripted.engine) Scripted.one_move
  = Reply (square_pair_name 8) (square_pair_name 14)
  /\ exists src dst, answer (E := Scripted.engine) Scripted.start = Reply src dst.
Proof.
  split.
  - destruct (answer_move_iff_legal_move (E := Scripted.engine) scripted_apply_undo
                scripted_no_move scripted_move_squares Scripted.one_move)
      as (_ & Hone & _).
    apply (Hone Scripted.Qa2g2). vm_compute. reflexivity.
  - destruct (answer_move_iff_legal_move (E := Scripted.engine) scripted_apply_undo
                scripted_no_move scripted_move_squares Scripted.start)
      as (_ & _ & Hiff & _).
    apply Hiff. vm_compute. discriminate.
Defined.

(** C7 fails as stated: on an engine whose undo is sound, the second
    apply of a line raises; [minimax] and the root loop raise in turn and
    leave the board with the king move applied. *)
Lemma search_raises_without_undo :
  undo_law (E := Scripted.faulty_engine)
  /\ minimax (E := Scripted.faulty_engine) 2 NegInf PosInf true Scripted.start
     = (inl EngineError, Scripted.king_moved)
  /\ root_loop (E := Scripted.faulty_engine)
       (legal_moves (RulesEngine := Scripted.faulty_engine) Scripted.start)
       None NegInf Scripted.start
     = (inl EngineError, Scripted.king_moved)
  /\ Scripted.king_moved <> Scripted.start.
Proof.
  split; [exact faulty_undo|].
  split; [vm_compute; reflexivity|].
  split; [vm_compute; reflexivity|].
  intros Heq. apply (f_equal turn) in Heq. vm_compute in Heq. discriminate.
Qed.

Lemma search_restores_board_witness :
  snd (minimax (E := Scripted.engine) 3 NegInf PosInf true Scripted.start)
  = Scripted.start
  /\ exists w,
       log (snd (minimax (E := traced Scripted.engine) 3 NegInf PosInf true
                   (with_log Scripted.start [])))
       = [] ++ w /\ bracketed w.
Proof.
  destruct (search_restores_board (E := Scripted.engine) scripted_undo)
    as (Hboard & _ & Hlog & _).
  split.
  - apply (Hboard 3%nat NegInf PosInf true Scripted.start (Fin (-9999))).
    vm_compute. reflexivity.
  - apply (Hlog 3%nat NegInf PosInf true (with_log Scripted.start []) (Fin (-9999))).
    vm_compute. reflexivity.
Defined.

(** ** More on coordinates *)

(** [SQUARE_NAMES.index] raises [ValueError] only, and exactly on the names
    that are not in the table. *)
Lemma list_index_spec (name : pystr) (l : list pystr) (i : Z) :
  (name ∈ l -> exists j, list_index name l i = inr j)
  /\ (name ∉ l -> list_index name l i = inl ValueError).
Proof.
  revert i. induction l as [|n l IH]; intros i; simpl.
  - split; [intros H; now apply elem_of_nil in H|reflexivity].
  - destruct (bool_decide_reflect (n = name)) as [->|Hne].
    + split; [eauto|]. intros H. exfalso. apply H. left.
    + destruct (IH (i + 1)) as [IH1 IH2]. split.
      * intros [->|H]%elem_of_cons; [contradiction|auto].
      * intros H. apply IH2. intros Hin. apply H. now right.
Qed.

(** The names of the table are a letter from a to h and a digit from 1 to
    8. *)
Lemma square_names_form (name : pystr) :
  name ∈ SQUARE_NAMES ->
  exists f r, name = [f; r] /\ 97 <= f <= 104 /\ 49 <= r <= 56.
Proof.
  intros Hin.
  pose (P := fun n : pystr =>
    match n with
    | [f; r] => (97 <=? f) && (f <=? 104) && (49 <=? r) && (r <=? 56)
    | _ => false
    end).
  assert (HP : P name = true).
  { apply (forall_list P SQUARE_NAMES); [vm_compute; reflexivity|exact Hin]. }
  unfold P in HP. destruct name as [|f [|r [|? ?]]]; try discriminate.
  exists f, r. split; [reflexivity|]. lia.
Qed.

(** An integer whose decimal writing is one digit is that digit. *)
Lemma of_int_digit (y c : Z) : of_int y = [c] -> 49 <= c <= 56 -> y = c - 48.
Proof.
  unfold of_int. intros Hy Hc.
  rewrite <- (DecimalZ.of_to y).
  destruct (Z.to_int y) as [d|d].
  - destruct d as [|d|d|d|d|d|d|d|d|d|d]; simpl in Hy; try discriminate;
      injection Hy as <- Hd; destruct d; try discriminate; try lia; reflexivity.
  - injection Hy as <- _. lia.
Qed.

(** X1. In [reconstruct_board], a position whose two fields read as the
    integers [x] and [y] names a square exactly when both are between 1 and
    8, and the square is then number [8 (y - 1) + (x - 1)] of python-chess;
    any other pair raises: [OverflowError] when [96 + x] does not fit a C
    int, [ValueError] otherwise. *)
Theorem square_of_position (pos sx sy : pystr) (x y : Z) :
  split underscore pos = [sx; sy] -> int sx = inr x -> int sy = inr y ->
  rbind (map_to_algebraic pos) parse_square =
  if bool_decide (1 <= x <= 8 /\ 1 <= y <= 8) then inr (8 * (y - 1) + (x - 1))
  else if (96 + x <? - 2147483648) || (2147483647 <? 96 + x) then inl OverflowError
  else inl ValueError.
Proof.
  intros Hsplit Hx Hy. unfold map_to_algebraic. rewrite Hsplit, Hx, Hy.
  cbn [rbind].
  destruct (bool_decide_reflect (1 <= x <= 8 /\ 1 <= y <= 8)) as [[Hbx Hby]|Hout].
  - pose (P := fun x y : Z =>
      bool_decide (rbind (rbind (chr (96 + x)) (fun col => inr (col :: of_int y)))
                     parse_square = inr (8 * (y - 1) + (x - 1)))).
    assert (HP : P x y = true).
    { apply (forall_range (fun y => P x y) 1 8); [|lia].
      apply (forall_range (fun x => forallb (fun y => P x y) (seqZ 1 8)) 1 8); [|lia].
      vm_compute. reflexivity. }
    now apply bool_decide_eq_true in HP.
  - unfold chr.
    destruct ((96 + x <? - 2147483648) || (2147483647 <? 96 + x)) eqn:Hov;
      [reflexivity|].
    destruct ((96 + x <? 0) || (1114111 <? 96 + x)) eqn:Hrange; [reflexivity|].
    cbn [rbind]. unfold parse_square.
    apply list_index_spec. intros Hin.
    apply square_names_form in Hin as (f & r & [= Hf Hr] & Hfb & Hrb).
    apply Hout. apply of_int_digit in Hr; lia.
Qed.

Lemma square_of_position_witness :
  rbind (map_to_algebraic (str " 3_04")) parse_square = inr 26
  /\ rbind (map_to_algebraic (str "9_1")) parse_square = inl ValueError.
Proof.
  split.
  - apply (square_of_position (str " 3_04") (str " 3") (str "04") 3 4);
      vm_compute; reflexivity.
  - apply (square_of_position (str "9_1") (str "9") (str "1") 9 1);
      vm_compute; reflexivity.
Defined.

(** White space and signs are not digits. *)
Lemma decimal_space (d : Z) : is_space d = true -> decimal d = None.
Proof.
  unfold is_space. intros Hs.
  repeat (apply orb_prop in Hs as [Hs|Hs]);
    repeat (apply andb_prop in Hs as [? Hs]);
    repeat match goal with
           | H : (_ <=? _) = true |- _ => apply Z.leb_le in H
           | H : (_ =? _) = true |- _ => apply Z.eqb_eq in H
           end;
    try (subst d; vm_compute; reflexivity).
  - assert (Hcases : d = 9 \/ d = 10 \/ d = 11 \/ d = 12 \/ d = 13) by lia.
    repeat destruct Hcases as [->|Hcases]; try subst d; vm_compute; reflexivity.
  - assert (Hcases : d = 8192 \/ d = 8193 \/ d = 8194 \/ d = 8195 \/ d = 8196
                     \/ d = 8197 \/ d = 8198 \/ d = 8199 \/ d = 8200
                     \/ d = 8201 \/ d = 8202) by lia.
    repeat destruct Hcases as [->|Hcases]; try subst d; vm_compute; reflexivity.
Qed.

(** A character that is no sign is read as a number by itself. *)
Lemma sign_match (f : pystr -> res Z) (d : Z) :
  d <> 43 -> d <> 45 ->
  match [d] with
  | 43 :: t => f t
  | 45 :: t => rbind (f t) (fun n => inr (- n))
  | l => f l
  end = f [d].
Proof.
  intros H43 H45.
  destruct d as [|p|p]; [reflexivity| |reflexivity].
  do 7 (try (destruct p as [p|p|]; try reflexivity)); contradiction.
Qed.

(** [int] of one character. *)
Lemma int_char (d : Z) :
  int [d] = match decimal d with Some v => inr v | None => inl ValueError end.
Proof.
  unfold int, strip. cbn [lstrip].
  destruct (is_space d) eqn:Hs.
  - rewrite (decimal_space d Hs). reflexivity.
  - cbn [rev app lstrip]. rewrite Hs. cbn [rev app].
    destruct (Z.eq_dec d 43) as [->|H43]; [vm_compute; reflexivity|].
    destruct (Z.eq_dec d 45) as [->|H45]; [vm_compute; reflexivity|].
    rewrite (sign_match unsigned_value d H43 H45).
    unfold unsigned_value. destruct (decimal d) as [v|] eqn:Hd; [|reflexivity].
    match goal with
    | |- context [Nat.ltb ?a ?n] => assert (Hlen : Nat.ltb a n = false)
    end.
    { apply Nat.ltb_ge.
      etransitivity; [apply length_filter|]. unfold MAX_STR_DIGITS. simpl. lia. }
    rewrite Hlen. cbn [digits_value]. rewrite Hd. reflexivity.
Qed.

(** X2. [map_from_algebraic] reads two characters and checks neither the
    letter nor the range of the digit: a name shorter than two characters
    raises [IndexError]; a second character that is not a decimal digit
    (of any script) raises [ValueError]; otherwise the result is the
    offset of the first character from ['a'] (plus one), an underscore,
    and the value of the digit, whatever follows the second character. *)
Theorem map_from_algebraic_cases (name : pystr) :
  map_from_algebraic name =
  match name with
  | c :: d :: _ =>
      match decimal d with
      | Some v => inr (of_int (c - 96) ++ underscore :: of_int v)
      | None => inl ValueError
      end
  | _ => inl IndexError
  end.
Proof.
  destruct name as [|c [|d rest]]; try reflexivity.
  unfold map_from_algebraic. cbn [index lookup list_lookup rbind ord].
  rewrite int_char. destruct (decimal d); reflexivity.
Qed.

Lemma square_name_out (sq : Z) :
  sq < -64 \/ 64 <= sq -> square_name sq = inl IndexError.
Proof.
  intros Hout. unfold square_name.
  destruct (Z.ltb_spec sq 0) as [Hneg|Hpos].
  - destruct (Z.ltb_spec (sq + 64) 0); [reflexivity|lia].
  - destruct (Z.ltb_spec sq 0); [lia|].
    rewrite (proj2 (lookup_ge_None SQUARE_NAMES (Z.to_nat sq))); [reflexivity|].
    change (length SQUARE_NAMES) with 64%nat. lia.
Qed.

Lemma pair_name_square (sq : Z) :
  0 <= sq < 64 ->
  rbind (map_to_algebraic (square_pair_name sq)) parse_square = inr sq.
Proof.
  intros Hsq.
  pose (P := fun sq : Z =>
    bool_decide (rbind (map_to_algebraic (square_pair_name sq)) parse_square = inr sq)).
  assert (HP : P sq = true).
  { apply (forall_range P 0 64); [vm_compute; reflexivity|lia]. }
  now apply bool_decide_eq_true in HP.
Qed.

(** X3. The reply for a move whose squares are on the board names them so
    that the decoding of [reconstruct_board] ([map_to_algebraic], then
    [parse_square]) gives the two squares back.  A source square beyond
    the table of python-chess (64 or more, or less than -64) raises
    [IndexError]. *)
Theorem reply_decodes (m : Move) :
  (0 <= from_square m < 64 -> 0 <= to_square m < 64 ->
   exists src dst, reply m = Reply src dst
     /\ rbind (map_to_algebraic src) parse_square = inr (from_square m)
     /\ rbind (map_to_algebraic dst) parse_square = inr (to_square m))
  /\ (from_square m < -64 \/ 64 <= from_square m -> reply m = Raised IndexError).
Proof.
  split.
  - intros Hf Ht. eexists _, _. split; [apply reply_squares; assumption|].
    split; now apply pair_name_square.
  - intros Hout. unfold reply. now rewrite (square_name_out _ Hout).
Qed.

Lemma reply_decodes_witness :
  (exists src dst, reply Scripted.Qa2g2 = Reply src dst
     /\ rbind (map_to_algebraic src) parse_square = inr 8
     /\ rbind (map_to_algebraic dst) parse_square = inr 14)
  /\ reply (Scripted.simple_move 64 0) = Raised IndexError.
Proof.
  split.
  - apply (reply_decodes Scripted.Qa2g2); simpl; lia.
  - apply (reply_decodes (Scripted.simple_move 64 0)). right. simpl. lia.
Defined.

(** ** More on board reconstruction *)

Section ReconstructionMore.

Context {ES : Type} {E : RulesEngine ES}.

Local Abbreviation board := (Board ES).

Lemma list_index_range (name : pystr) (l : list pystr) (i j : Z) :
  list_index name l i = inr j -> i <= j < i + Z.of_nat (length l).
Proof.
  revert i. induction l as [|n l IH]; intros i; simpl; [discriminate|].
  destruct (bool_decide (n = name)).
  - intros [= <-]. lia.
  - intros H. apply IH in H. lia.
Qed.

(** What a record that lands says about itself. *)
Lemma landing_some (r : PieceRecord) (sq : Z) (p : Piece) :
  landing r = inr (Some (sq, p)) ->
  captured r = false /\ 0 <= sq < 64
  /\ color p = (if startswith (str "w_") (type r) then WHITE else BLACK).
Proof.
  unfold landing. destruct (captured r); [discriminate|].
  repeat match goal with
         | |- rbind ?x _ = _ -> _ => destruct x eqn:?; cbn [rbind]; [discriminate|]
         end.
  intros [= <- <-]. split; [reflexivity|]. split; [|reflexivity].
  match goal with
  | H : parse_square _ = inr _ |- _ => apply list_index_range in H;
      change (length SQUARE_NAMES) with 64%nat in H; lia
  end.
Qed.

(** The loop touches the placement only. *)
Lemma place_pieces_frame (pd : dict PieceRecord) (b b' : board) :
  place_pieces b pd = inr b' ->
  castling_rights b' = castling_rights b /\ turn b' = turn b
  /\ engine_state b' = engine_state b.
Proof.
  revert b. induction pd as [|[k r] pd IH]; intros b; simpl.
  - intros [= <-]. auto.
  - rewrite place_piece_landing.
    destruct (landing r) as [e|[[sq p]|]]; simpl; [discriminate| |apply IH].
    intros H. apply IH in H. exact H.
Qed.

(** A piece the loop leaves on a square was there before or comes from a
    record that lands there. *)
Lemma place_pieces_sound (pd : dict PieceRecord) (b b' : board) (sq : Z) (p : Piece) :
  place_pieces b pd = inr b' ->
  piece_at b' sq = Some p ->
  piece_at b sq = Some p
  \/ exists k r, (k, r) ∈ pd /\ landing r = inr (Some (sq, p)).
Proof.
  revert b. induction pd as [|[k r] pd IH]; intros b; simpl.
  - intros [= <-]. auto.
  - rewrite place_piece_landing.
    destruct (landing r) as [e|[[sq' p']|]] eqn:Hl; simpl; [discriminate| |].
    + intros Hrun Hp. destruct (IH _ Hrun Hp) as [Hb|(k' & r' & Hin & Hl')].
      * unfold piece_at, set_piece_at in Hb. simpl in Hb.
        destruct (decide (sq' = sq)) as [->|Hne].
        -- rewrite lookup_insert_eq in Hb. injection Hb as ->.
           right. exists k, r. split; [left|exact Hl].
        -- rewrite lookup_insert_ne in Hb by exact Hne. now left.
      * right. exists k', r'. split; [now right|exact Hl'].
    + intros Hrun Hp. destruct (IH _ Hrun Hp) as [Hb|(k' & r' & Hin & Hl')].
      * now left.
      * right. exists k', r'. split; [now right|exact Hl'].
Qed.

(** X4. In a position [reconstruct_board] builds, Black is to move, the
    hidden state is that of an empty board, and every piece stands on one
    of the 64 squares and comes from a record that is not captured and
    lands there; it is white exactly when the type of the record starts
    with ["w_"].  Captured records place nothing. *)
Theorem built_pieces_from_records (pd : dict PieceRecord) (b : board) :
  reconstruct_board pd = inr b ->
  turn b = BLACK /\ engine_state b = empty_state
  /\ forall sq p, piece_at b sq = Some p ->
       0 <= sq < 64
       /\ exists key r, (key, r) ∈ pd /\ captured r = false
            /\ landing r = inr (Some (sq, p))
            /\ color p = (if startswith (str "w_") (type r) then WHITE else BLACK).
Proof.
  rewrite reconstruct_board_eq.
  destruct (place_pieces empty_board pd) as [e|b0] eqn:Hloop; [discriminate|].
  destruct (all_rights pd) as [rights|]; [|discriminate].
  intros [= <-]. split; [reflexivity|]. split.
  - simpl. now apply place_pieces_frame in Hloop as (_ & _ & ->).
  - intros sq p Hp. change (piece_at b0 sq = Some p) in Hp.
    destruct (place_pieces_sound pd _ _ sq p Hloop Hp) as [Hempty|(k & r & Hin & Hl)].
    + unfold piece_at, empty_board in Hempty. simpl in Hempty.
      rewrite lookup_empty in Hempty. discriminate.
    + destruct (landing_some r sq p Hl) as (Hc & Hsq & Hcol).
      split; [exact Hsq|]. exists k, r. auto.
Qed.

(** *** The order of the records *)

Lemma place_pieces_all_land (pd : dict PieceRecord) (b b' : board) :
  place_pieces b pd = inr b' ->
  forall k r, (k, r) ∈ pd -> exists o, landing r = inr o.
Proof.
  revert b. induction pd as [|[k r] pd IH]; intros b Hrun k' r' Hin; simpl in Hrun.
  - now apply elem_of_nil in Hin.
  - rewrite place_piece_landing in Hrun.
    destruct (landing r) as [e|o] eqn:Hl; [discriminate|].
    apply elem_of_cons in Hin as [[= -> ->]|Hin]; [eauto|].
    destruct o as [[sq p]|]; simpl in Hrun; eapply IH; eauto.
Qed.

(** When no two records land on the same square, a record that lands
    keeps its square. *)
Lemma place_pieces_lookup (pd : dict PieceRecord) (b b' : board)
    (k : pystr) (r : PieceRecord) (sq : Z) (p : Piece) :
  NoDup (occupied pd) ->
  place_pieces b pd = inr b' ->
  (k, r) ∈ pd -> landing r = inr (Some (sq, p)) ->
  piece_at b' sq = Some p.
Proof.
  revert b. induction pd as [|[k0 r0] pd IH]; intros b Hnd Hrun Hin Hl.
  - now apply elem_of_nil in Hin.
  - simpl in Hrun. rewrite place_piece_landing in Hrun.
    unfold occupied in Hnd. cbn [omap list_omap snd] in Hnd.
    fold (occupied pd) in Hnd.
    apply elem_of_cons in Hin as [[= <- <-]|Hin].
    + unfold landing_square in Hnd. rewrite Hl in *. simpl in Hrun.
      apply NoDup_cons in Hnd as [Hfresh _].
      rewrite (place_pieces_other pd _ b' sq Hrun).
      * unfold piece_at, set_piece_at. simpl. apply lookup_insert_eq.
      * intros k' r' p' Hin' Hl'. apply Hfresh.
        unfold occupied. apply list_elem_of_omap. exists (k', r').
        split; [exact Hin'|]. unfold landing_square. simpl. now rewrite Hl'.
    + assert (Hnd' : NoDup (occupied pd)).
      { destruct (landing_square r0); [now apply NoDup_cons in Hnd as [_ ?]|exact Hnd]. }
      destruct (landing r0) as [e|[[sq0 p0]|]]; simpl in Hrun; [discriminate| |];
        now apply (IH _ Hnd' Hrun).
Qed.

(** With distinct keys, reading by key is membership. *)
Lemma dict_get_elem_of {V : Type} (d : dict V) (k : pystr) (v : V) :
  NoDup (d.*1) -> dict_get d k = inr v <-> (k, v) ∈ d.
Proof.
  induction d as [|[k' v'] d IH]; intros Hnd; simpl.
  - split; [discriminate|intros H; now apply elem_of_nil in H].
  - apply NoDup_cons in Hnd as [Hfresh Hnd].
    destruct (bool_decide_reflect (k' = k)) as [->|Hne].
    + split.
      * intros [= ->]. left.
      * intros [[= ->]|Hin]%elem_of_cons; [reflexivity|].
        exfalso. apply Hfresh. apply list_elem_of_fmap. exists (k, v). auto.
    + rewrite (IH Hnd). split.
      * intros Hin. now right.
      * intros [[= -> ->]|Hin]%elem_of_cons; [contradiction|exact Hin].
Qed.

Lemma dict_get_error {V : Type} (d : dict V) (k : pystr) (e : exn) :
  dict_get d k = inl e -> e = KeyError.
Proof.
  induction d as [|[k' v] d IH]; simpl; [congruence|].
  destruct (bool_decide (k' = k)); [discriminate|exact IH].
Qed.

Lemma dict_get_perm {V : Type} (d1 d2 : dict V) (k : pystr) :
  NoDup (d1.*1) -> d1 ≡ₚ d2 -> dict_get d1 k = dict_get d2 k.
Proof.
  intros Hnd Hperm.
  assert (Hnd2 : NoDup (d2.*1)) by now rewrite <- Hperm.
  destruct (dict_get d1 k) as [e|v] eqn:H1, (dict_get d2 k) as [e'|v'] eqn:H2.
  - apply dict_get_error in H1, H2. congruence.
  - apply (dict_get_elem_of _ _ _ Hnd2) in H2. rewrite <- Hperm in H2.
    apply (dict_get_elem_of _ _ _ Hnd) in H2. congruence.
  - apply (dict_get_elem_of _ _ _ Hnd) in H1. rewrite Hperm in H1.
    apply (dict_get_elem_of _ _ _ Hnd2) in H1. congruence.
  - apply (dict_get_elem_of _ _ _ Hnd) in H1. rewrite Hperm in H1.
    apply (dict_get_elem_of _ _ _ Hnd2) in H1. congruence.
Qed.

(** X5. The order of the records does not matter for an inventory with
    distinct keys in which no two records land on the same square: when
    [reconstruct_board] builds a position from it, it builds the same
    position from any reordering of it. *)
Theorem reconstruct_board_reordered (pd1 pd2 : dict PieceRecord) (b : board) :
  pd1 ≡ₚ pd2 -> NoDup (pd1.*1) -> NoDup (occupied pd1) ->
  reconstruct_board pd1 = inr b ->
  reconstruct_board pd2 = inr b.
Proof.
  intros Hperm Hkeys Hsq. rewrite !reconstruct_board_eq.
  destruct (place_pieces empty_board pd1) as [e|b1] eqn:H1; [discriminate|].
  assert (Hrights : all_rights pd2 = all_rights pd1).
  { unfold all_rights, side_rights, moved_of.
    now rewrite !(dict_get_perm pd1 pd2 _ Hkeys Hperm). }
  rewrite Hrights.
  destruct (place_pieces_ok pd2 empty_board) as [b2 H2].
  { intros k r Hin. rewrite <- Hperm in Hin.
    exact (place_pieces_all_land pd1 _ _ H1 k r Hin). }
  rewrite H2. destruct (all_rights pd1) as [rights|]; [|discriminate].
  intros [= <-]. do 3 f_equal.
  assert (Hsq2 : NoDup (occupied pd2)).
  { unfold occupied in *. now rewrite <- Hperm. }
  destruct (place_pieces_frame pd1 _ _ H1) as (Hc1 & Ht1 & He1).
  destruct (place_pieces_frame pd2 _ _ H2) as (Hc2 & Ht2 & He2).
  assert (Hmap : piece_map b2 = piece_map b1).
  { apply map_eq. intros sq.
    destruct (piece_map b2 !! sq) as [p|] eqn:Hp2.
    - destruct (place_pieces_sound pd2 _ _ sq p H2 Hp2) as [Hempty|(k & r & Hin & Hl)].
      + unfold piece_at, empty_board in Hempty. simpl in Hempty.
        rewrite lookup_empty in Hempty. discriminate.
      + rewrite <- Hperm in Hin. symmetry.
        exact (place_pieces_lookup pd1 _ _ k r sq p Hsq H1 Hin Hl).
    - destruct (piece_map b1 !! sq) as [p|] eqn:Hp1; [|reflexivity].
      destruct (place_pieces_sound pd1 _ _ sq p H1 Hp1) as [Hempty|(k & r & Hin & Hl)].
      + unfold piece_at, empty_board in Hempty. simpl in Hempty.
        rewrite lookup_empty in Hempty. discriminate.
      + rewrite Hperm in Hin.
        pose proof (place_pieces_lookup pd2 _ _ k r sq p Hsq2 H2 Hin Hl) as Hp.
        unfold piece_at in Hp. congruence. }
  destruct b1, b2. simpl in *. congruence.
Qed.

(** *** The mask of castling rights *)

(** X6. The castling rights of a built position are made of the four
    corner bits and nothing else, and each right is granted if and only if
    the king record and the rook record it depends on both have
    [moved = false], wherever the two pieces stand and whether they are
    captured or not. *)
Theorem castling_rights_exact (pd : dict PieceRecord) (b : board) :
  reconstruct_board pd = inr b ->
  Z.land (castling_rights b) (Z.lnot BB_CORNERS) = 0
  /\ forall king rook bb, (king, rook, bb) ∈ castling_table ->
       (grants b bb = true <->
        moved_of pd king = Some false /\ moved_of pd rook = Some false).
Proof.
  intros Hb. apply reconstruct_board_rights in Hb. split.
  - generalize dependent (castling_rights b). intros rights Hb.
    unfold all_rights, side_rights in Hb.
    destruct (moved_of pd (str "w_king")) as [[]|];
      destruct (moved_of pd (str "b_king")) as [[]|];
      try discriminate Hb;
      try (destruct (moved_of pd (str "w_rook2")) as [[]|]; try discriminate Hb;
           destruct (moved_of pd (str "w_rook1")) as [[]|]; try discriminate Hb);
      try (destruct (moved_of pd (str "b_rook2")) as [[]|]; try discriminate Hb;
           destruct (moved_of pd (str "b_rook1")) as [[]|]; try discriminate Hb);
      injection Hb as <-; vm_compute; reflexivity.
  - intros king rook bb Hin.
    exact (all_rights_grants pd _ king rook bb Hb Hin).
Qed.

(** *** Errors of the request *)

(** X12. The first record, in the order of the inventory, that cannot be
    placed decides the answer: [get_move] answers with the exception that
    record raises, whatever follows it and whether or not the castling
    records are there; no search is run. *)
Theorem get_move_first_failure (pd1 pd2 : dict PieceRecord) (key : pystr)
    (r : PieceRecord) (e : exn) :
  (forall k r', (k, r') ∈ pd1 -> exists o, landing r' = inr o) ->
  landing r = inl e ->
  get_move (pd1 ++ (key, r) :: pd2) = Raised e.
Proof.
  intros Hok Hbad. unfold get_move. rewrite reconstruct_board_eq, place_pieces_app.
  destruct (place_pieces_ok pd1 empty_board Hok) as [b1 ->].
  simpl. now rewrite place_piece_landing, Hbad.
Qed.

End ReconstructionMore.

Lemma built_pieces_from_records_witness :
  turn Examples.castle_board = BLACK
  /\ 0 <= 7 < 64
  /\ exists key r, (key, r) ∈ Examples.castle_pieces /\ captured r = false
       /\ landing r = inr (Some (7, mkPiece ROOK WHITE))
       /\ color (mkPiece ROOK WHITE)
          = (if startswith (str "w_") (type r) then WHITE else BLACK).
Proof.
  destruct (built_pieces_from_records (E := Scripted.engine)
              Examples.castle_pieces Examples.castle_board) as (Ht & _ & Hp).
  - vm_compute. reflexivity.
  - split; [exact Ht|]. apply Hp. vm_compute. reflexivity.
Defined.

Lemma reconstruct_board_reordered_witness :
  reconstruct_board (E := Scripted.engine) (rev Examples.castle_pieces)
  = inr Examples.castle_board.
Proof.
  apply (reconstruct_board_reordered (E := Scripted.engine) Examples.castle_pieces).
  - symmetry. apply Permutation_rev.
  - apply (bool_decide_unpack _). vm_compute. exact I.
  - apply (bool_decide_unpack _). vm_compute. exact I.
  - vm_compute. reflexivity.
Defined.

Lemma castling_rights_exact_witness :
  Z.land (castling_rights Examples.castle_board) (Z.lnot BB_CORNERS) = 0
  /\ (grants Examples.castle_board BB_H1 = true <->
      moved_of Examples.castle_pieces (str "w_king") = Some false
      /\ moved_of Examples.castle_pieces (str "w_rook2") = Some false).
Proof.
  destruct (castling_rights_exact (E := Scripted.engine)
              Examples.castle_pieces Examples.castle_board) as [Hbits Hiff].
  - vm_compute. reflexivity.
  - split; [exact Hbits|]. apply Hiff. in_list.
Defined.

Lemma get_move_first_failure_witness :
  get_move (E := Scripted.engine)
    ([(str "w_king", Scripted.record "w_king" "5_1" false true)]
     ++ (str "b_king", Scripted.record "b_king" "5_9" false true)
     :: [(str "b_queen", Scripted.record "queen" "1_2" false true)])
  = Raised ValueError.
Proof.
  apply (get_move_first_failure (E := Scripted.engine)).
  - intros k r' Hin.
    apply elem_of_cons in Hin as [[= -> ->]|Hin];
      [ | apply elem_of_nil in Hin; contradiction ].
    eexists. vm_compute. reflexivity.
  - vm_compute. reflexivity.
Defined.

(** ** More on evaluation *)

Section EvaluationMore.

Context {ES : Type} {E : RulesEngine ES}.

Local Abbreviation board := (Board ES).

Lemma side_sum_bounds (c : Color) (b : board) (squares : list Z) :
  0 <= foldr Z.add 0 (List.map (side_value c b) squares)
    <= 9 * Z.of_nat (length squares).
Proof.
  induction squares as [|sq squares IH]; simpl; [lia|].
  assert (0 <= side_value c b sq <= 9).
  { unfold side_value. destruct (piece_at b sq) as [[[] col]|]; simpl;
      try destruct (bool_decide (col = c)); simpl; lia. }
  lia.
Qed.

Lemma material_bounds (b : board) : -576 <= material b <= 576.
Proof.
  unfold material, material_of.
  pose proof (side_sum_bounds BLACK b SQUARES) as Hb.
  pose proof (side_sum_bounds WHITE b SQUARES) as Hw.
  change (length SQUARES) with 64%nat in *. lia.
Qed.

Lemma evaluate_board_cases (b : board) :
  evaluate_board b =
  if is_checkmate b then (if turn b then -9999 else 9999) else material b.
Proof.
  unfold evaluate_board, material, material_of.
  destruct (is_checkmate b); [reflexivity|].
  rewrite evaluate_squares. lia.
Qed.

Lemma evaluate_board_range (b : board) : -9999 <= evaluate_board b <= 9999.
Proof.
  rewrite evaluate_board_cases. pose proof (material_bounds b).
  destruct (is_checkmate b); [destruct (turn b)|]; lia.
Qed.

(** X7. The score of a position that is not checkmate is a material
    balance between -576 and 576 (64 squares, 9 at most each), so the two
    checkmate scores are never the score of anything else:
    [evaluate_board] returns -9999 or 9999 exactly on the checkmates. *)
Theorem evaluate_board_bounds (b : board) :
  (is_checkmate b = false -> -576 <= evaluate_board b <= 576)
  /\ (evaluate_board b = -9999 \/ evaluate_board b = 9999 <-> is_checkmate b = true).
Proof.
  rewrite evaluate_board_cases. pose proof (material_bounds b) as Hm.
  destruct (is_checkmate b).
  - split; [discriminate|]. split; [reflexivity|].
    intros _. destruct (turn b); auto.
  - split; [intros _; exact Hm|]. split; [lia|discriminate].
Qed.

Lemma side_value_swap (c : Color) (b : board) (sq : Z) :
  side_value c (swap_colors b) sq = side_value (negb c) b sq.
Proof.
  unfold side_value, piece_at, swap_colors. simpl. rewrite lookup_fmap.
  destruct (piece_map b !! sq) as [[pt col]|]; simpl; [|reflexivity].
  destruct col, c; reflexivity.
Qed.

(** X8. Exchanging the colours of all pieces negates the score, as long
    as neither position is a checkmate. *)
Theorem evaluate_board_swap (b : board) :
  is_checkmate b = false -> is_checkmate (swap_colors b) = false ->
  evaluate_board (swap_colors b) = - evaluate_board b.
Proof.
  intros H1 H2. rewrite !evaluate_board_cases, H1, H2.
  unfold material, material_of.
  assert (Hsw : forall c, List.map (side_value c (swap_colors b)) SQUARES
                          = List.map (side_value (negb c) b) SQUARES).
  { intros c. apply List.map_ext. intros sq. apply side_value_swap. }
  rewrite !Hsw. unfold BLACK, WHITE. cbn [negb]. lia.
Qed.

End EvaluationMore.

Lemma evaluate_board_bounds_witness :
  -576 <= evaluate_board (E := Scripted.engine) Scripted.start <= 576
  /\ (evaluate_board (E := Scripted.engine) Scripted.mate = -9999
      \/ evaluate_board (E := Scripted.engine) Scripted.mate = 9999).
Proof.
  split.
  - apply (evaluate_board_bounds (E := Scripted.engine) Scripted.start).
    vm_compute. reflexivity.
  - apply (evaluate_board_bounds (E := Scripted.engine) Scripted.mate).
    vm_compute. reflexivity.
Defined.

Lemma evaluate_board_swap_witness :
  evaluate_board (E := Scripted.engine) (swap_colors Scripted.start)
  = - evaluate_board (E := Scripted.engine) Scripted.start.
Proof.
  apply (evaluate_board_swap (E := Scripted.engine) Scripted.start);
    vm_compute; reflexivity.
Defined.

(** ** More on the search *)

Section SearchMore.

Context {ES : Type} {E : RulesEngine ES}.

Local Abbreviation board := (Board ES).

(** X9. On an engine whose listed moves can be applied and undone,
    [minimax] called with any window [alpha < beta] returns, gives the
    board back, and its result [e] bounds the minimax value [v] of the
    position: if [e <= alpha] then [v <= e]; if [alpha < e < beta] then
    [v = e]; if [beta <= e] then [e <= v]. *)
Theorem minimax_window (Hlaw : apply_undo_law) (depth : nat) (alpha beta : score)
    (maximizing : bool) (b : board) :
  sltb alpha beta = true ->
  exists e,
    minimax depth alpha beta maximizing b = (inr e, b)
    /\ (sleb e alpha = true -> sleb (full_minimax depth maximizing b) e = true)
    /\ (sltb alpha e = true -> sltb e beta = true ->
        full_minimax depth maximizing b = e)
    /\ (sleb beta e = true -> sleb e (full_minimax depth maximizing b) = true).
Proof.
  intros Hab. exists (alphabeta depth alpha beta maximizing b).
  split; [apply (minimax_run Hlaw)|].
  exact (alphabeta_within depth maximizing b alpha beta Hab).
Qed.

Lemma smax_in_range (a b : score) :
  in_range a \/ a = NegInf -> in_range b -> in_range (smax a b).
Proof.
  intros [(x & -> & Hx)| ->] (y & -> & Hy); unfold smax; simpl.
  - destruct (x <? y); [exists y|exists x]; auto.
  - exists y; auto.
Qed.

Lemma smin_in_range (a b : score) :
  in_range a \/ a = PosInf -> in_range b -> in_range (smin a b).
Proof.
  intros [(x & -> & Hx)| ->] (y & -> & Hy); unfold smin; simpl.
  - destruct (y <? x); [exists y|exists x]; auto.
  - exists y; auto.
Qed.

Lemma ab_max_range (rec : score -> score -> Move -> score) (moves : list Move) :
  (forall m alpha beta, m ∈ moves -> in_range (rec alpha beta m)) ->
  forall alpha beta M,
    in_range M \/ (M = NegInf /\ moves <> []) ->
    in_range (ab_max rec moves alpha beta M).
Proof.
  induction moves as [|m moves IH]; intros Hrec alpha beta M HM; simpl.
  - destruct HM as [HM|[_ HM]]; [exact HM|contradiction].
  - assert (HM' : in_range (smax M (rec alpha beta m))).
    { apply smax_in_range; [|apply Hrec; left].
      destruct HM as [HM|[-> _]]; auto. }
    destruct (sleb beta (smax alpha (rec alpha beta m))); [exact HM'|].
    apply IH; [|now left]. intros; apply Hrec; now right.
Qed.

Lemma ab_min_range (rec : score -> score -> Move -> score) (moves : list Move) :
  (forall m alpha beta, m ∈ moves -> in_range (rec alpha beta m)) ->
  forall alpha beta M,
    in_range M \/ (M = PosInf /\ moves <> []) ->
    in_range (ab_min rec moves alpha beta M).
Proof.
  induction moves as [|m moves IH]; intros Hrec alpha beta M HM; simpl.
  - destruct HM as [HM|[_ HM]]; [exact HM|contradiction].
  - assert (HM' : in_range (smin M (rec alpha beta m))).
    { apply smin_in_range; [|apply Hrec; left].
      destruct HM as [HM|[-> _]]; auto. }
    destruct (sleb (smin beta (rec alpha beta m)) alpha); [exact HM'|].
    apply IH; [|now left]. intros; apply Hrec; now right.
Qed.

Lemma alphabeta_range (Hno : no_move_law) (depth : nat) :
  forall alpha beta maximizing (b : board),
    in_range (alphabeta depth alpha beta maximizing b).
Proof.
  induction depth as [|depth IH]; intros alpha beta maximizing b; simpl.
  - eexists; split; [reflexivity|apply evaluate_board_range].
  - destruct (is_game_over b) eqn:Hover.
    { eexists; split; [reflexivity|apply evaluate_board_range]. }
    assert (Hmoves : legal_moves b <> []).
    { intros Hnil. apply Hno in Hnil. congruence. }
    destruct maximizing.
    + apply ab_max_range; [intros; apply IH|right; auto].
    + apply ab_min_range; [intros; apply IH|right; auto].
Qed.

(** X10. On an engine that applies and undoes its listed moves and for
    which a position without moves is over, [minimax] returns an integer
    between -9999 and 9999 for every depth, role and pair of bounds, never
    an infinity. *)
Theorem minimax_bounded (Hlaw : apply_undo_law) (Hno : no_move_law)
    (depth : nat) (alpha beta : score) (maximizing : bool) (b : board) :
  exists z, minimax depth alpha beta maximizing b = (inr (Fin z), b)
         /\ -9999 <= z <= 9999.
Proof.
  destruct (alphabeta_range Hno depth alpha beta maximizing b) as (z & Hz & Hr).
  exists z. split; [|exact Hr]. now rewrite (minimax_run Hlaw), Hz.
Qed.

(** The choice of the root loop, once it holds a move: [pre] are the moves
    before the move held, [mid] the moves seen since. *)
Lemma root_pick_first_max (vals : Move -> score) (moves : list Move) :
  forall pre mb mid,
    (forall m', m' ∈ pre -> sltb (vals m') (vals mb) = true) ->
    (forall m', m' ∈ mid -> sleb (vals m') (vals mb) = true) ->
    exists l1 m l2,
      pre ++ mb :: mid ++ moves = l1 ++ m :: l2
      /\ root_pick vals moves (Some mb) (vals mb) = Some m
      /\ (forall m', m' ∈ l1 -> sltb (vals m') (vals m) = true)
      /\ (forall m', m' ∈ l2 -> sleb (vals m') (vals m) = true).
Proof.
  induction moves as [|m1 moves IH]; intros pre mb mid Hpre Hmid; simpl.
  - exists pre, mb, mid. rewrite app_nil_r. auto.
  - destruct (sltb (vals mb) (vals m1)) eqn:Hlt.
    + destruct (IH (pre ++ mb :: mid) m1 []) as (l1 & m & l2 & Heq & Hpick & H1 & H2).
      * intros m' [Hin|[->|Hin]%elem_of_cons]%elem_of_app.
        -- specialize (Hpre m' Hin). clear -Hpre Hlt. score_lia.
        -- exact Hlt.
        -- specialize (Hmid m' Hin). clear -Hmid Hlt. score_lia.
      * intros m' Hin. now apply elem_of_nil in Hin.
      * exists l1, m, l2. split; [|auto].
        rewrite <- Heq. simpl. now rewrite <- app_assoc.
    + destruct (IH pre mb (mid ++ [m1])) as (l1 & m & l2 & Heq & Hpick & H1 & H2).
      * exact Hpre.
      * intros m' [Hin|[->|Hin]%elem_of_cons]%elem_of_app; [auto| |].
        -- unfold sleb. now rewrite Hlt.
        -- now apply elem_of_nil in Hin.
      * exists l1, m, l2. split; [|auto].
        rewrite <- Heq. now rewrite <- app_assoc.
Qed.

(** X11. On an engine that keeps its contract, the move answered for a
    position with legal moves is the first, in the order of the engine, of
    the moves whose two-ply minimax value (the opponent to move) is
    greatest: the moves before it have a smaller value, the moves after it
    a value that is not greater. *)
Theorem answer_first_best (Hlaw : apply_undo_law) (Hno : no_move_law)
    (Hsq : move_squares_law) (b : board) :
  legal_moves b <> [] ->
  exists l1 m l2,
    legal_moves b = l1 ++ m :: l2
    /\ answer b = Reply (square_pair_name (from_square m))
                        (square_pair_name (to_square m))
    /\ (forall m', m' ∈ l1 ->
          sltb (full_minimax 2 false (child b m'))
               (full_minimax 2 false (child b m)) = true)
    /\ (forall m', m' ∈ l2 ->
          sleb (full_minimax 2 false (child b m'))
               (full_minimax 2 false (child b m)) = true).
Proof.
  intros Hne. destruct (legal_moves b) as [|m0 moves] eqn:Hmoves; [contradiction|].
  destruct (root_pick_first_max (fun m => full_minimax 2 false (child b m))
              moves [] m0 []) as (l1 & m & l2 & Heq & Hpick & H1 & H2).
  { intros m' Hin. now apply elem_of_nil in Hin. }
  { intros m' Hin. now apply elem_of_nil in Hin. }
  cbv beta in *. simpl in Heq.
  exists l1, m, l2. split; [exact Heq|]. split; [|auto].
  assert (Hroot : root_pick (fun m => full_minimax 2 false (child b m))
                    (m0 :: moves) None NegInf = Some m).
  { cbn [root_pick].
    destruct (full_minimax_finite Hno 2 false (child b m0)) as [z Hz].
    rewrite Hz in *. exact Hpick. }
  unfold answer. rewrite (root_loop_run Hlaw) by auto. rewrite Hmoves, Hroot.
  assert (Hin : m ∈ legal_moves b).
  { rewrite Hmoves, Heq. apply elem_of_app. right. left. }
  destruct (Hsq b m Hin) as (Hf & Ht & Hd).
  now rewrite (Move_bool_legal _ Hd), (reply_squares _ Hf Ht).
Qed.

End SearchMore.

Lemma minimax_window_witness :
  exists e,
    minimax (E := Scripted.engine) 2 (Fin 0) (Fin 5) true Scripted.start
    = (inr e, Scripted.start)
    /\ (sleb e (Fin 0) = true ->
        sleb (full_minimax (E := Scripted.engine) 2 true Scripted.start) e = true)
    /\ (sltb (Fin 0) e = true -> sltb e (Fin 5) = true ->
        full_minimax (E := Scripted.engine) 2 true Scripted.start = e)
    /\ (sleb (Fin 5) e = true ->
        sleb e (full_minimax (E := Scripted.engine) 2 true Scripted.start) = true).
Proof.
  apply (minimax_window (E := Scripted.engine) scripted_apply_undo).
  reflexivity.
Defined.

Lemma answer_first_best_witness :
  exists l1 m l2,
    legal_moves (RulesEngine := Scripted.engine) Scripted.start = l1 ++ m :: l2
    /\ answer (E := Scripted.engine) Scripted.start
       = Reply (square_pair_name (from_square m)) (square_pair_name (to_square m))
    /\ (forall m', m' ∈ l1 ->
          sltb (full_minimax (E := Scripted.engine) 2 false (child (E := Scripted.engine) Scripted.start m'))
               (full_minimax (E := Scripted.engine) 2 false (child (E := Scripted.engine) Scripted.start m))
          = true)
    /\ (forall m', m' ∈ l2 ->
          sleb (full_minimax (E := Scripted.engine) 2 false (child (E := Scripted.engine) Scripted.start m'))
               (full_minimax (E := Scripted.engine) 2 false (child (E := Scripted.engine) Scripted.start m))
          = true).
Proof.
  apply (answer_first_best (E := Scripted.engine) scripted_apply_undo
           scripted_no_move scripted_move_squares Scripted.start).
  vm_compute. discriminate.
Defined.

Lemma minimax_bounded_witness :
  exists z,
    minimax (E := Scripted.engine) 3 (Fin 7) (Fin 2) false Scripted.start
    = (inr (Fin z), Scripted.start)
    /\ -9999 <= z <= 9999.
Proof.
  apply (minimax_bounded (E := Scripted.engine) scripted_apply_undo scripted_no_move).
Defined.
